(** * zeep.xsd.types: the XSD type graph, its resolution and marshalling

    A shallow embedding of [src/zeep/xsd/types.py].  Python objects live in a
    store addressed by references, so that a type can extend or contain
    itself; methods that mutate [self] become store transformers.  Calls that
    may not return are given fuel; Python exceptions are carried by the
    result type [res]. *)

From stdpp Require Import base list strings pretty.
From Stdlib Require Import ZArith Lia.

Set Default Proof Using "Type".
Set Warnings "-register-all".
Open Scope string_scope.
Open Scope list_scope.

(** ** Exceptions and results *)

Inductive exn : Type :=
| NotImplementedError (msg : string)
| TypeError (msg : string)
| AttributeError (msg : string)
| LookupError (msg : string)
| InvalidReference.
(* [InvalidReference] is not a Python exception: it marks a reference that
   denotes no object of the store, which Python excludes. *)

Inductive res (A : Type) : Type :=
| Ok (a : A)
| Raise (e : exn)
| OutOfFuel.
Arguments Ok {A} a.
Arguments Raise {A} e.
Arguments OutOfFuel {A}.

(** Sequencing: [x ← m; k] runs [k] on the value of [m] and propagates an
    exception or the lack of fuel. *)
Global Instance res_bind : MBind res := λ A B k m,
  match m with
  | Ok a => k a
  | Raise e => Raise e
  | OutOfFuel => OutOfFuel
  end.

(** [for x in l: ...] over an accumulator, stopping at the first exception. *)
Fixpoint foldM {A S : Type} (step : S → A → res S) (s : S) (l : list A) : res S :=
  match l with
  | [] => Ok s
  | x :: l' => s' ← step s x; foldM step s' l'
  end.

(** A generator or comprehension: the items in order, first exception wins. *)
Fixpoint mapM {A B : Type} (f : A → res B) (l : list A) : res (list B) :=
  match l with
  | [] => Ok []
  | x :: l' => y ← f x; ys ← mapM f l'; Ok (y :: ys)
  end.

(** ** Python values and dicts *)

(** References into the store. *)
Abbreviation ref := nat (only parsing).

Inductive pyvalue : Type :=
| VNone
| VInt (z : Z)
| VStr (s : string)
| VList (items : list pyvalue)
| VDict (entries : list (string * pyvalue))
| VCompound (xsd_type : ref) (fields : list (string * pyvalue)).

(** A dict (and an OrderedDict) is an association list with distinct keys in
    insertion order. *)
Section Dict.
Context {V : Type}.

Fixpoint dict_get (d : list (string * V)) (k : string) : option V :=
  match d with
  | [] => None
  | (k', v) :: d' => if decide (k' = k) then Some v else dict_get d' k
  end.

(** [d[k] = v]: an existing key keeps its position, a new one goes last. *)
Fixpoint dict_set (d : list (string * V)) (k : string) (v : V) : list (string * V) :=
  match d with
  | [] => [(k, v)]
  | (k', v') :: d' =>
      if decide (k' = k) then (k, v) :: d' else (k', v') :: dict_set d' k v
  end.

(** [d.update(other)] *)
Definition dict_update (d other : list (string * V)) : list (string * V) :=
  fold_left (fun acc kv => dict_set acc kv.1 kv.2) other d.

Definition dict_keys (d : list (string * V)) : list string := d.*1.

(** [k in d], and the truth value of [d]. *)
Definition dict_has (d : list (string * V)) (k : string) : bool :=
  match dict_get d k with Some _ => true | None => false end.

Definition dict_nonempty (d : list (string * V)) : bool :=
  match d with [] => false | _ :: _ => true end.
End Dict.

(** [getattr(value, name, None)].  Only the fields of a compound value are
    modelled; [None] and scalars carry no field of a schema name. *)
Definition getattr (value : pyvalue) (name : string) : pyvalue :=
  match value with
  | VCompound _ fields => default VNone (dict_get fields name)
  | _ => VNone
  end.

(** Iterating a value ([for v in value]). *)
Definition py_iter (value : pyvalue) : res (list pyvalue) :=
  match value with
  | VList items => Ok items
  | VDict entries => Ok (VStr <$> entries.*1)
  | VStr s => Ok ((fun a => VStr (String a EmptyString)) <$> String.list_ascii_of_string s)
  | VNone => Raise (TypeError "'NoneType' object is not iterable")
  | VInt _ => Raise (TypeError "'int' object is not iterable")
  | VCompound _ _ => Raise (TypeError "object is not iterable")
  end.

(** ** Classes *)

(** The seven classes of types.py. *)
Inductive klass : Type :=
| KType | KUnresolvedType | KUnresolvedCustomType
| KSimpleType | KComplexType | KListType | KUnionType.

Global Instance klass_eq_dec : EqDecision klass.
Proof. solve_decision. Defined.

(** What a subclass body may override of a simple type: the class attribute
    [name] and the two scalar conversions. *)
Record class_body : Type := ClassBody {
  body_name : option string;
  body_xmlvalue : option (pyvalue → res string);
  body_pythonvalue : option (string → res pyvalue)
}.

(** [{'__module__': ...}]: a body that overrides nothing. *)
Definition empty_body : class_body := ClassBody None None None.

(** A class is one of the seven, or a subclass [type(cname, (parent,), body)]
    (the built-in simple types of the schema are such subclasses).  A class
    is described by its name, its parent and its body; the identity of the
    class object, which Python makes anew at each call of [type], is not
    part of the description. *)
Inductive cls : Type :=
| Builtin (k : klass)
| Subclass (cname : string) (parent : cls) (body : class_body).

Definition klass_name (k : klass) : string :=
  match k with
  | KType => "Type"
  | KUnresolvedType => "UnresolvedType"
  | KUnresolvedCustomType => "UnresolvedCustomType"
  | KSimpleType => "SimpleType"
  | KComplexType => "ComplexType"
  | KListType => "ListType"
  | KUnionType => "UnionType"
  end.

(** [c.__name__] *)
Definition class_name (c : cls) : string :=
  match c with
  | Builtin k => klass_name k
  | Subclass cname _ _ => cname
  end.

Fixpoint root (c : cls) : klass :=
  match c with
  | Builtin k => k
  | Subclass _ parent _ => root parent
  end.

(** Attribute lookup along the chain of parents. *)
Fixpoint find_xmlvalue (c : cls) : option (pyvalue → res string) :=
  match c with
  | Builtin _ => None
  | Subclass _ parent body =>
      match body_xmlvalue body with
      | Some f => Some f
      | None => find_xmlvalue parent
      end
  end.

Fixpoint find_pythonvalue (c : cls) : option (string → res pyvalue) :=
  match c with
  | Builtin _ => None
  | Subclass _ parent body =>
      match body_pythonvalue body with
      | Some f => Some f
      | None => find_pythonvalue parent
      end
  end.

(** The class attribute [name] of a simple type ([SimpleType.name = None]). *)
Fixpoint find_name (c : cls) : option string :=
  match c with
  | Builtin _ => None
  | Subclass _ parent body =>
      match body_name body with
      | Some s => Some s
      | None => find_name parent
      end
  end.

(** ** Objects of the type graph *)

(** Modelled from the spec: zeep.xsd.elements is not under src/.  A single
    element has a name and a bound type; an attribute definition likewise; a
    composite content node (sequence, choice, all, group) is the ordered list
    of its subfields, each a single element or a composite node again, which
    [serialize] reads as a Python list of things with a [name] and a
    [serialize].  Resolving a node resolves the type references it holds, in
    place, and returns the node. *)
Record element : Type := Element { el_name : string; el_type : ref }.

Record attribute : Type := Attribute { attr_name : string; attr_type : ref }.

Inductive node : Type :=
| Single (e : element)
| Composite (children : list node).

(** Truth value of a content node: a list subclass is false when empty. *)
Definition node_truthy (nd : node) : bool :=
  match nd with
  | Single _ => true
  | Composite [] => false
  | Composite (_ :: _) => true
  end.

Record complex : Type := Complex {
  _resolved : bool;
  _element : option node;
  _attributes : list attribute;
  _restriction : option ref;
  _extension : option ref
}.

Inductive obj : Type :=
| OType (c : cls)
| OUnresolvedType (qname : string)
| OUnresolvedCustomType (name : string) (base_qname : ref)
| OSimpleType (c : cls)
| OComplexType (c : cls) (d : complex)
| OListType (item_type : ref)
| OUnionType (item_types : list ref).

(** The store: the object at each reference. *)
Abbreviation heap := (list obj) (only parsing).

(** [o.__class__] *)
Definition class_of (o : obj) : cls :=
  match o with
  | OType c | OSimpleType c | OComplexType c _ => c
  | OUnresolvedType _ => Builtin KUnresolvedType
  | OUnresolvedCustomType _ _ => Builtin KUnresolvedCustomType
  | OListType _ => Builtin KListType
  | OUnionType _ => Builtin KUnionType
  end.

(** The XML tree handed to the parser, and filled by the renderer. *)
Inductive xml : Type :=
| XmlElement (tag : string) (attrib : list (string * string))
    (text : option string) (children : list xml).

Definition getchildren (x : xml) : list xml :=
  match x with XmlElement _ _ _ cs => cs end.
Definition xml_attrib (x : xml) : list (string * string) :=
  match x with XmlElement _ a _ _ => a end.
Definition xml_text (x : xml) : option string :=
  match x with XmlElement _ _ t _ => t end.
Definition set_text (x : xml) (s : string) : xml :=
  match x with XmlElement tag a _ cs => XmlElement tag a (Some s) cs end.

(** ** Collaborators outside types.py *)

Record Collaborators : Type := {
  (* schema.get_type(qname) *)
  get_type : string → res ref;
  (* attr.parse(value, schema) *)
  attr_parse : attribute → string → res pyvalue;
  (* element.parse_xmlelements(children, schema, name) *)
  parse_xmlelements : node → list xml → string → res (list (string * pyvalue));
  (* element.signature(), attribute.signature() *)
  node_signature : node → res string;
  attr_signature : attribute → res string;
  (* subfield.serialize(field_value), for a subfield that is an Element *)
  element_serialize : element → pyvalue → res pyvalue;
  (* subfield.name and subfield.serialize(field_value), for a subfield that
     is itself a composite node *)
  composite_name : list node → res string;
  composite_serialize : list node → pyvalue → res pyvalue;
  (* CompoundValue.__init__ of the value class bound to a type *)
  CompoundValue_init : ref → list (string * pyvalue) → res pyvalue;
  (* repr() of a str *)
  py_repr : string → string
}.

(** ** Store access *)

Definition complex_at (h : heap) (r : ref) : option complex :=
  match h !! r with
  | Some (OComplexType _ d) => Some d
  | _ => None
  end.

(** An assignment to a field of the ComplexType at [r]. *)
Definition modify (h : heap) (r : ref) (g : complex → complex) : heap :=
  match h !! r with
  | Some (OComplexType c d) => <[r := OComplexType c (g d)]> h
  | _ => h
  end.

Definition set_resolved (d : complex) : complex :=
  Complex true (_element d) (_attributes d) (_restriction d) (_extension d).
Definition set_extension (t : ref) (d : complex) : complex :=
  Complex (_resolved d) (_element d) (_attributes d) (_restriction d) (Some t).
Definition set_restriction (t : ref) (d : complex) : complex :=
  Complex (_resolved d) (_element d) (_attributes d) (Some t) (_extension d).
Definition set_element (nd : node) (d : complex) : complex :=
  Complex (_resolved d) (Some nd) (_attributes d) (_restriction d) (_extension d).
Definition set_attribute (i : nat) (a : attribute) (d : complex) : complex :=
  Complex (_resolved d) (_element d) (<[i := a]> (_attributes d))
    (_restriction d) (_extension d).

(** ** resolve *)

(** [xsd_type()]: the class called with no argument.  [Type.__init__] and
    [ComplexType.__init__] accept that; the other constructors have required
    parameters. *)
Definition instantiate (c : cls) : res obj :=
  match root c with
  | KType => Ok (OType c)
  | KSimpleType => Ok (OSimpleType c)
  | KComplexType => Ok (OComplexType c (Complex false None [] None None))
  | KUnresolvedType | KUnresolvedCustomType | KListType | KUnionType =>
      Raise (TypeError (class_name c +:+ ".__init__() missing required positional arguments"))
  end.

Section ResolveSteps.
(** The steps of the resolve methods, over the recursive call [rs]. *)
Variable rs : heap → ref → res (heap * ref).

(** Element.resolve and Attribute.resolve, as modelled above. *)
Definition resolve_element (h : heap) (e : element) : res (heap * element) :=
  '(h', t) ← rs h (el_type e); Ok (h', Element (el_name e) t).

Definition resolve_attribute (h : heap) (a : attribute) : res (heap * attribute) :=
  '(h', t) ← rs h (attr_type a); Ok (h', Attribute (attr_name a) t).

(** The subfields of a composite node, resolved in order by [rn]. *)
Definition resolve_children (rn : heap → node → res (heap * node))
    : heap → list node → res (heap * list node) :=
  fix go (h : heap) (l : list node) {struct l} : res (heap * list node) :=
    match l with
    | [] => Ok (h, [])
    | x :: l' =>
        '(h1, x') ← rn h x;
        '(h2, l'') ← go h1 l';
        Ok (h2, x' :: l'')
    end.

Fixpoint resolve_node (h : heap) (nd : node) {struct nd} : res (heap * node) :=
  match nd with
  | Single e => '(h', e') ← resolve_element h e; Ok (h', Single e')
  | Composite l => '(h', l') ← resolve_children resolve_node h l; Ok (h', Composite l')
  end.

(** [[item.resolve() for item in self.item_types]] *)
Fixpoint resolve_items (h : heap) (l : list ref) : res (heap * list ref) :=
  match l with
  | [] => Ok (h, [])
  | t :: l' =>
      '(h1, t') ← rs h t;
      '(h2, l'') ← resolve_items h1 l';
      Ok (h2, t' :: l'')
  end.

(** [if self._extension: self._extension = self._extension.resolve()] *)
Definition resolve_extension (h : heap) (r : ref) : res heap :=
  match complex_at h r with
  | Some d =>
      match _extension d with
      | Some t => '(h', t') ← rs h t; Ok (modify h' r (set_extension t'))
      | None => Ok h
      end
  | None => Ok h
  end.

Definition resolve_restriction (h : heap) (r : ref) : res heap :=
  match complex_at h r with
  | Some d =>
      match _restriction d with
      | Some t => '(h', t') ← rs h t; Ok (modify h' r (set_restriction t'))
      | None => Ok h
      end
  | None => Ok h
  end.

(** [if self._element: self._element = self._element.resolve()] *)
Definition resolve_content (h : heap) (r : ref) : res heap :=
  match complex_at h r with
  | Some d =>
      match _element d with
      | Some nd =>
          if node_truthy nd
          then '(h', nd') ← resolve_node h nd; Ok (modify h' r (set_element nd'))
          else Ok h
      | None => Ok h
      end
  | None => Ok h
  end.

(** [for i, attribute in enumerate(self._attributes):
       self._attributes[i] = attribute.resolve()]
    with [n] items left from index [i]. *)
Fixpoint resolve_attributes (n : nat) (i : nat) (h : heap) (r : ref) : res heap :=
  match n with
  | 0 => Ok h
  | S n' =>
      match complex_at h r with
      | Some d =>
          match _attributes d !! i with
          | Some a =>
              '(h', a') ← resolve_attribute h a;
              resolve_attributes n' (S i) (modify h' r (set_attribute i a')) r
          | None => Ok h
          end
      | None => Ok h
      end
  end.

Definition ComplexType_resolve (h : heap) (r : ref) (d : complex) : res (heap * ref) :=
  if _resolved d then Ok (h, r)
  else
    let h0 := modify h r set_resolved in
    h1 ← resolve_extension h0 r;
    h2 ← resolve_restriction h1 r;
    h3 ← resolve_content h2 r;
    h4 ← resolve_attributes (length (_attributes d)) 0 h3 r;
    Ok (h4, r).
End ResolveSteps.

Section Resolve.
Variable X : Collaborators.

Fixpoint resolve (fuel : nat) (h : heap) (r : ref) : res (heap * ref) :=
  match fuel with
  | 0 => OutOfFuel
  | S f =>
      match h !! r with
      | None => Raise InvalidReference
      | Some (OType _) => Raise (NotImplementedError "")
      | Some (OUnresolvedType qname) =>
          retval ← get_type X qname; resolve f h retval
      | Some (OUnresolvedCustomType name base_qname) =>
          '(h1, base) ←
             match h !! base_qname with
             | Some (OUnresolvedType _) => resolve f h base_qname
             | _ => Ok (h, base_qname)
             end;
          match h1 !! base with
          | Some o =>
              o' ← instantiate (Subclass name (class_of o) empty_body);
              Ok (h1 ++ [o'], length h1)
          | None => Raise InvalidReference
          end
      | Some (OSimpleType _) => Ok (h, r)
      | Some (OComplexType _ d) => ComplexType_resolve (resolve f) h r d
      | Some (OListType item_type) =>
          '(h', t) ← resolve f h item_type; Ok (<[r := OListType t]> h', r)
      | Some (OUnionType item_types) =>
          '(h', l) ← resolve_items (resolve f) h item_types;
          Ok (<[r := OUnionType l]> h', r)
      end
  end.
End Resolve.

(** ** The derived views of a ComplexType *)

(** Modelled from the spec: zeep.xsd.utils.UniqueAttributeName is not under
    src/; its [get_name] hands out the synthetic unique names [_value_1],
    [_value_2], ... of one generator. *)
Definition get_name (num : nat) : string := "_value_" +:+ pretty num.

Definition no_attribute (o : obj) (attr : string) : exn :=
  AttributeError ("'" +:+ class_name (class_of o) +:+ "' object has no attribute '"
                  +:+ attr +:+ "'").

(** The property [attributes]: [Type.attributes] is the empty list,
    [ComplexType.attributes] puts the extension's list before its own.  The
    cache of [threaded_cached_property] is not modelled: the view is read on
    one store. *)
Fixpoint attributes (fuel : nat) (h : heap) (r : ref) : res (list attribute) :=
  match fuel with
  | 0 => OutOfFuel
  | S f =>
      match h !! r with
      | None => Raise InvalidReference
      | Some (OComplexType _ d) =>
          result ← match _extension d with
                   | Some t => attributes f h t
                   | None => Ok []
                   end;
          Ok (result ++ _attributes d)
      | Some (OUnionType l) => Raise (no_attribute (OUnionType l) "attributes")
      | Some _ => Ok []
      end
  end.

(** [if self._element: result.append((generator.get_name(), self._element))]
    after [num] names were drawn from the generator: what is appended. *)
Definition own_nodes (num : nat) (d : complex) : list (string * node) :=
  match _element d with
  | Some nd => if node_truthy nd then [(get_name (S num), nd)] else []
  | None => []
  end.

(** The property [elements_nested]. *)
Fixpoint elements_nested (fuel : nat) (h : heap) (r : ref) : res (list (string * node)) :=
  match fuel with
  | 0 => OutOfFuel
  | S f =>
      match h !! r with
      | None => Raise InvalidReference
      | Some (OComplexType _ d) =>
          (* generator = UniqueAttributeName(); [num] names were drawn *)
          '(result, num) ←
             match _extension d with
             | Some t =>
                 let name := get_name 1 in
                 match h !! t with
                 | None => Raise InvalidReference
                 | Some (OSimpleType _) => Ok ([(name, Single (Element name t))], 1)
                 | Some (OComplexType _ _) =>
                     l ← elements_nested f h t; Ok (l, 1)
                 | Some o => Raise (no_attribute o "elements_nested")
                 end
             | None => Ok ([], 0)
             end;
          Ok (result ++ own_nodes num d)
      | Some o => Raise (no_attribute o "elements_nested")
      end
  end.

(** Modelled from the spec: the [elements] of a composite node, its
    depth-first flattening into (name, element) pairs. *)
Fixpoint node_elements (nd : node) : list (string * element) :=
  match nd with
  | Single e => [(el_name e, e)]
  | Composite l => concat (node_elements <$> l)
  end.

(** The property [elements]: the flattened elements. *)
Definition elements (fuel : nat) (h : heap) (r : ref) : res (list (string * element)) :=
  nested ← elements_nested fuel h r;
  Ok (concat (node_elements <$> nested.*2)).

(** ** Scalar encoding *)

(** [xmlvalue] and [pythonvalue] of an instance of a SimpleType class. *)
Definition SimpleType_xmlvalue (c : cls) (value : pyvalue) : res string :=
  match find_xmlvalue c with
  | Some f => f value
  | None => Raise (NotImplementedError (class_name c +:+ ".xmlvalue() not implemented"))
  end.

Definition SimpleType_pythonvalue (c : cls) (xmlvalue : string) : res pyvalue :=
  match find_pythonvalue c with
  | Some f => f xmlvalue
  | None => Raise (NotImplementedError (class_name c +:+ ".pytonvalue() not implemented"))
  end.

(** [t.xmlvalue(value)] for the object at [r]; [ListType.xmlvalue] joins the
    encodings of the items with one space. *)
Fixpoint xmlvalue (fuel : nat) (h : heap) (r : ref) (value : pyvalue) : res string :=
  match fuel with
  | 0 => OutOfFuel
  | S f =>
      match h !! r with
      | None => Raise InvalidReference
      | Some (OSimpleType c) => SimpleType_xmlvalue c value
      | Some (OListType item_type) =>
          items ← py_iter value;
          parts ← mapM (xmlvalue f h item_type) items;
          Ok (String.concat " " parts)
      | Some o => Raise (no_attribute o "xmlvalue")
      end
  end.

(** [ListType.render(parent, value)]: [parent.text = self.xmlvalue(value)]. *)
Definition ListType_render (fuel : nat) (h : heap) (r : ref)
    (parent : xml) (value : pyvalue) : res xml :=
  match h !! r with
  | Some (OListType _) => text ← xmlvalue fuel h r value; Ok (set_text parent text)
  | Some _ => Raise (TypeError "not a ListType")
  | None => Raise InvalidReference
  end.

Section Marshal.
Variable X : Collaborators.

(** [SimpleType.__call__] with positional arguments [args] and keyword
    arguments [kwargs], on an instance of class [c]. *)
Definition first_key (kwargs : list (string * pyvalue)) : string :=
  match kwargs with
  | (key, _) :: _ => key
  | [] => ""
  end.

Definition SimpleType_call (c : cls) (args : list pyvalue)
    (kwargs : list (string * pyvalue)) : res string :=
  let num_args := length args + length kwargs in
  if negb (num_args =? 1)%nat then
    Raise (TypeError (class_name c +:+ "() takes exactly 1 argument ("
                      +:+ pretty num_args +:+ " given). "
                      +:+ "Simple types expect only a single value argument"))
  else if dict_nonempty kwargs && negb (dict_has kwargs "value") then
    Raise (TypeError (class_name c +:+ "() got an unexpected keyword argument "
                      +:+ py_repr X (first_key kwargs) +:+ ". "
                      +:+ "Simple types expect only a single value argument"))
  else
    match args with
    | value :: _ => SimpleType_xmlvalue c value
    | [] =>
        match dict_get kwargs "value" with
        | Some value => SimpleType_xmlvalue c value
        | None => Raise (LookupError "value")
        end
    end.

(** [ComplexType.__call__] with keyword arguments: the value class bound
    to the type, created on first use, is instantiated. *)
Definition ComplexType_call (r : ref) (kwargs : list (string * pyvalue)) : res pyvalue :=
  CompoundValue_init X r kwargs.

(** [{attr.name: attr for attr in self.attributes}] *)
Definition attr_map (attrs : list attribute) : list (string * attribute) :=
  fold_left (fun m a => dict_set m (attr_name a) a) attrs [].

(** One turn of the attribute loop of parse_xmlelement. *)
Definition parse_attribute (m : list (string * attribute))
    (init_kwargs : list (string * pyvalue)) (kv : string * string)
    : res (list (string * pyvalue)) :=
  match dict_get m kv.1 with
  | None => Ok init_kwargs
  | Some attr => value ← attr_parse X attr kv.2; Ok (dict_set init_kwargs kv.1 value)
  end.

(** One turn of the element loop of parse_xmlelement. *)
Definition parse_content (children : list xml)
    (init_kwargs : list (string * pyvalue)) (ne : string * node)
    : res (list (string * pyvalue)) :=
  result ← parse_xmlelements X ne.2 children ne.1;
  Ok (dict_update init_kwargs result).

(** [ComplexType.parse_xmlelement(xmlelement, schema)] *)
Definition parse_xmlelement (fuel : nat) (h : heap) (r : ref) (xmlelement : xml)
    : res pyvalue :=
  let elems := getchildren xmlelement in
  let attribs := xml_attrib xmlelement in
  match elems, attribs with
  | [], [] => Ok VNone
  | _, _ =>
      attrs ← attributes fuel h r;
      init_kwargs ← foldM (parse_attribute (attr_map attrs)) [] attribs;
      nested ← elements_nested fuel h r;
      init_kwargs ← foldM (parse_content (getchildren xmlelement)) init_kwargs nested;
      ComplexType_call r init_kwargs
  end.

(** [subfield.name] and [subfield.serialize(field_value)]: those of the
    Element, or those of a composite node that is a member of another. *)
Definition subfield_name (subfield : node) : res string :=
  match subfield with
  | Single e => Ok (el_name e)
  | Composite l => composite_name X l
  end.

Definition subfield_serialize (subfield : node) (field_value : pyvalue) : res pyvalue :=
  match subfield with
  | Single e => element_serialize X e field_value
  | Composite l => composite_serialize X l field_value
  end.

(** One assignment [result[subfield.name] = subfield.serialize(field_value)],
    after [field_value = getattr(value, subfield.name, None)]. *)
Definition serialize_field (value : pyvalue)
    (result : list (string * pyvalue)) (subfield : node)
    : res (list (string * pyvalue)) :=
  name ← subfield_name subfield;
  let field_value := getattr value name in
  v ← subfield_serialize subfield field_value;
  Ok (dict_set result name v).

(** The body of the loop of serialize: the members of a composite node one
    by one, a single element by itself. *)
Definition serialize_node (value : pyvalue)
    (result : list (string * pyvalue)) (ne : string * node)
    : res (list (string * pyvalue)) :=
  match ne.2 with
  | Composite l => foldM (serialize_field value) result l
  | Single e => serialize_field value result (Single e)
  end.

(** [ComplexType.serialize(value)]: the OrderedDict, as its item list. *)
Definition serialize (fuel : nat) (h : heap) (r : ref) (value : pyvalue)
    : res (list (string * pyvalue)) :=
  nested ← elements_nested fuel h r;
  foldM (serialize_node value) [] nested.

(** The element loop of signature: an Element whose type is [self] is
    skipped.  [element.type == self] is identity here: ComplexType defines
    no [__eq__], and [SimpleType.__eq__] is false across classes. *)
Definition signature_part (r : ref) (parts : list string) (ne : string * node)
    : res (list string) :=
  match ne.2 with
  | Single e =>
      if decide (el_type e = r) then Ok parts
      else part ← node_signature X ne.2; Ok (parts ++ [part])
  | Composite _ => part ← node_signature X ne.2; Ok (parts ++ [part])
  end.

Definition signature_attribute (parts : list string) (a : attribute)
    : res (list string) :=
  part ← attr_signature X a; Ok (parts ++ [part]).

(** [ComplexType.signature()] *)
Definition signature (fuel : nat) (h : heap) (r : ref) : res string :=
  nested ← elements_nested fuel h r;
  parts ← foldM (signature_part r) [] nested;
  attrs ← attributes fuel h r;
  parts ← foldM signature_attribute parts attrs;
  Ok (String.concat ", " parts).
End Marshal.

(** ** Method lookup *)

(** The operations a caller may invoke on a type. *)
Inductive method : Type :=
| M_accept | M_parse_xmlelement | M_parsexml | M_render | M_resolve
| M_serialize | M_signature | M_xmlvalue | M_pythonvalue.

Definition method_name (m : method) : string :=
  match m with
  | M_accept => "accept"
  | M_parse_xmlelement => "parse_xmlelement"
  | M_parsexml => "parsexml"
  | M_render => "render"
  | M_resolve => "resolve"
  | M_serialize => "serialize"
  | M_signature => "signature"
  | M_xmlvalue => "xmlvalue"
  | M_pythonvalue => "pythonvalue"
  end.

(** The [def]s of each class body. *)
Definition defines (k : klass) (m : method) : bool :=
  match k, m with
  | KType, (M_accept | M_parse_xmlelement | M_parsexml | M_render | M_resolve
            | M_signature) => true
  | KUnresolvedType, M_resolve => true
  | KUnresolvedCustomType, M_resolve => true
  | KSimpleType, (M_parse_xmlelement | M_pythonvalue | M_render | M_resolve
                  | M_serialize | M_signature | M_xmlvalue) => true
  | KComplexType, (M_parse_xmlelement | M_render | M_resolve | M_serialize
                   | M_signature) => true
  | KListType, (M_render | M_resolve | M_xmlvalue) => true
  | KUnionType, (M_resolve | M_signature) => true
  | _, _ => false
  end.

(** The base class; [None] is [object]. *)
Definition base_class (k : klass) : option klass :=
  match k with
  | KType => None
  | KUnionType => None
  | _ => Some KType
  end.

(** The class whose body supplies [m] for an instance of [k]. *)
Definition find_method (k : klass) (m : method) : option klass :=
  if defines k m then Some k
  else match base_class k with
       | Some b => if defines b m then Some b else None
       | None => None
       end.

(** The bodies that consist of [raise NotImplementedError]. *)
Definition is_stub (definer : klass) (m : method) : bool :=
  match definer, m with
  | KType, (M_accept | M_parse_xmlelement | M_parsexml | M_render | M_resolve) => true
  | KSimpleType, (M_xmlvalue | M_pythonvalue) => true
  | _, _ => false
  end.

Definition stub_message (k definer : klass) (m : method) : string :=
  match definer, m with
  | KSimpleType, M_xmlvalue => klass_name k +:+ ".xmlvalue() not implemented"
  | KSimpleType, M_pythonvalue => klass_name k +:+ ".pytonvalue() not implemented"
  | _, _ => ""
  end.

Inductive outcome : Type :=
| Raises (e : exn)
| Runs (definer : klass).

(** Invoking [m] on an instance of [k]: the attribute lookup fails, or the
    body found is a stub, or a real body runs. *)
Definition invoke (k : klass) (m : method) : outcome :=
  match find_method k m with
  | None =>
      Raises (AttributeError ("'" +:+ klass_name k +:+ "' object has no attribute '"
                              +:+ method_name m +:+ "'"))
  | Some definer =>
      if is_stub definer m then Raises (NotImplementedError (stub_message k definer m))
      else Runs definer
  end.

Definition implements (k : klass) (m : method) : bool :=
  match invoke k m with
  | Runs _ => true
  | Raises _ => false
  end.

(** ** Shape of a type graph *)

Inductive tag : Type :=
| TSimple
| TComplex
| TUnresolved (qname : string)
| TOther.

Definition tag_of (o : obj) : tag :=
  match o with
  | OSimpleType _ => TSimple
  | OComplexType _ _ => TComplex
  | OUnresolvedType q => TUnresolved q
  | _ => TOther
  end.

Definition tags (h : heap) : list tag := tag_of <$> h.

(** A reference to a simple or complex type. *)
Definition concrete (K : list tag) (t : ref) : bool :=
  match K !! t with
  | Some TSimple | Some TComplex => true
  | _ => false
  end.

Fixpoint node_refs (nd : node) : list ref :=
  match nd with
  | Single e => [el_type e]
  | Composite l => concat (node_refs <$> l)
  end.

Definition complex_refs (d : complex) : list ref :=
  option_list (_extension d) ++ option_list (_restriction d)
  ++ from_option node_refs [] (_element d) ++ (attr_type <$> _attributes d).

Section Shape.
Variable X : Collaborators.

(** A reference is good when it denotes a simple or complex type, or a
    placeholder whose name the registry maps to one. *)
Definition good (K : list tag) (t : ref) : bool :=
  match K !! t with
  | Some TSimple | Some TComplex => true
  | Some (TUnresolved q) =>
      match get_type X q with
      | Ok t' => concrete K t'
      | _ => false
      end
  | _ => false
  end.

Definition obj_ok (K : list tag) (o : obj) : bool :=
  match o with
  | OSimpleType _ => true
  | OComplexType _ d => forallb (good K) (complex_refs d)
  | OUnresolvedType q =>
      match get_type X q with
      | Ok t' => concrete K t'
      | _ => false
      end
  | _ => false
  end.

(** A graph of simple types, complex types and placeholders for them,
    whose references are all good.  Cycles are allowed. *)
Definition graph_ok (h : heap) : Prop :=
  Forall (fun o => obj_ok (tags h) o = true) h.
End Shape.

(** The complex types not yet marked resolved. *)
Definition is_pending (o : obj) : bool :=
  match o with
  | OComplexType _ d => negb (_resolved d)
  | _ => false
  end.

Fixpoint pending (h : heap) : nat :=
  match h with
  | [] => 0
  | o :: h' => (if is_pending o then 1 else 0) + pending h'
  end.

Definition is_complex (h : heap) (r : ref) : Prop :=
  ∃ c d, h !! r = Some (OComplexType c d).

Definition is_resolved (h : heap) (r : ref) : Prop :=
  ∃ c d, h !! r = Some (OComplexType c d) ∧ _resolved d = true.

(** The resolved complex types of [h] are the same objects in [h']. *)
Definition keeps (h h' : heap) : Prop :=
  ∀ r c d, h !! r = Some (OComplexType c d) → _resolved d = true →
    h' !! r = Some (OComplexType c d).

(** The same, but for the type at [r], which only stays resolved. *)
Definition keeps_except (r : ref) (h h' : heap) : Prop :=
  (is_resolved h r → is_resolved h' r) ∧
  ∀ q c d, q ≠ r → h !! q = Some (OComplexType c d) → _resolved d = true →
    h' !! q = Some (OComplexType c d).

(** The extensions from [r] form a chain of complex types that ends, within
    [n] steps, at a complex type without extension or at a simple type. *)
Inductive extension_chain (h : heap) : ref → nat → Prop :=
| chain_base r c d n :
    h !! r = Some (OComplexType c d) →
    _extension d = None →
    extension_chain h r n
| chain_simple r c d t c' n :
    h !! r = Some (OComplexType c d) →
    _extension d = Some t →
    h !! t = Some (OSimpleType c') →
    extension_chain h r (S n)
| chain_step r c d t n :
    h !! r = Some (OComplexType c d) →
    _extension d = Some t →
    extension_chain h t n →
    extension_chain h r (S n).


(** The names of a list, each at its first occurrence. *)
Definition add_key (acc : list string) (k : string) : list string :=
  if decide (k ∈ acc) then acc else acc ++ [k].

Definition is_single (nd : node) : bool :=
  match nd with
  | Single _ => true
  | Composite _ => false
  end.

(** The things the loop of serialize visits for a content node. *)
Definition subfields (nd : node) : list node :=
  match nd with
  | Single e => [Single e]
  | Composite l => l
  end.

(** A content node whose members, if it is composite, are single elements. *)
Definition shallow (nd : node) : bool :=
  match nd with
  | Single _ => true
  | Composite l => forallb is_single l
  end.

Definition first_occurrences (names : list string) : list string :=
  fold_left add_key names [].

(** The references held by a complex type are good; a store has the shape
    [K] when its objects have the tags [K] and its graph is well formed. *)
Definition refs_good (X : Collaborators) (K : list tag) (d : complex) : Prop :=
  Forall (fun t => good X K t = true) (complex_refs d).

Definition shaped (X : Collaborators) (K : list tag) (h : heap) : Prop :=
  tags h = K ∧ graph_ok X h.

(** The attribute fields of a parse as the specification words them: the
    attributes of the XML element that the type declares, each decoded by its
    definition. *)
Definition declared (m : list (string * attribute)) (kv : string * string) : bool :=
  dict_has m kv.1.

Definition decode_attribute (X : Collaborators) (m : list (string * attribute))
    (kv : string * string) : res (string * pyvalue) :=
  match dict_get m kv.1 with
  | Some attr => value ← attr_parse X attr kv.2; Ok (kv.1, value)
  | None => Raise (LookupError kv.1)
  end.

(** ** Sample schemas *)

Module Sample.
(** A built-in simple type that encodes integers as decimal text. *)
Definition Integer : cls :=
  Subclass "Integer" (Builtin KSimpleType)
    (ClassBody (Some "xsd:integer")
       (Some (fun v => match v with
                       | VInt z => Ok (pretty z)
                       | _ => Raise (TypeError "an integer is required")
                       end))
       None).

Definition String_ : cls :=
  Subclass "String" (Builtin KSimpleType)
    (ClassBody (Some "xsd:string")
       (Some (fun v => match v with
                       | VStr s => Ok s
                       | _ => Raise (TypeError "a string is required")
                       end))
       (Some (fun s => Ok (VStr s)))).

(** A registry with two names, and collaborators that echo their input. *)
Definition X0 : Collaborators := {|
  get_type q :=
    if decide (q = "tns:Node") then Ok 0
    else if decide (q = "xsd:string") then Ok 1
    else Raise (LookupError q);
  attr_parse a s := Ok (VStr s);
  parse_xmlelements nd cs name :=
    Ok ((fun ne => (ne.1, VNone)) <$> node_elements nd);
  node_signature nd := Ok (String.concat ", " (node_elements nd).*1);
  attr_signature a := Ok (attr_name a);
  element_serialize e v := Ok v;
  composite_name l := Raise (AttributeError "object has no attribute 'name'");
  composite_serialize l v := Raise (AttributeError "object has no attribute 'serialize'");
  CompoundValue_init r kw := Ok (VCompound r kw);
  py_repr s := "'" +:+ s +:+ "'"
|}.
Definition NodeClass : cls := Subclass "Node" (Builtin KComplexType) empty_body.
Definition BaseClass : cls := Subclass "Base" (Builtin KComplexType) empty_body.

(** [Node] extends [Base] and holds an element [next] of type [Node];
    the references by name are still placeholders. *)
Definition graph : heap := [
  OComplexType NodeClass
    (Complex false (Some (Single (Element "next" 3))) [Attribute "id" 4]
       None (Some 2));
  OSimpleType String_;
  OComplexType BaseClass
    (Complex false (Some (Composite [Single (Element "label" 4)])) [Attribute "lang" 1]
       None None);
  OUnresolvedType "tns:Node";
  OUnresolvedType "xsd:string"
].

(** The same graph after [Node.resolve()]. *)
Definition resolved_graph : heap :=
  Eval vm_compute in
    match resolve X0 8 graph 0 with
    | Ok (h, _) => h
    | _ => []
    end.

(** A type that extends itself and contains itself. *)
Definition loop : heap := [
  OComplexType NodeClass
    (Complex false (Some (Single (Element "next" 2))) [Attribute "id" 1]
       None (Some 2));
  OSimpleType String_;
  OUnresolvedType "tns:Node"
].
(** A custom type derived from a simple type given by name, and one derived
    from a complex type that declares an attribute. *)
Definition alias_of_simple : heap := [
  OUnresolvedCustomType "Token" 2;
  OSimpleType String_;
  OUnresolvedType "xsd:string"
].

Definition alias_of_complex : heap := [
  OComplexType BaseClass (Complex true None [Attribute "lang" 1] None None);
  OSimpleType String_;
  OUnresolvedCustomType "Alias" 0
].
End Sample.

(** ** SimpleType marshalling and ComplexType.render *)

(** [SimpleType.render(parent, value)]: [parent.text = self.xmlvalue(value)]. *)
Definition SimpleType_render (c : cls) (parent : xml) (value : pyvalue) : res xml :=
  text ← SimpleType_xmlvalue c value; Ok (set_text parent text).

(** [SimpleType.parse_xmlelement(xmlelement, schema)]: no text gives None. *)
Definition SimpleType_parse_xmlelement (c : cls) (xmlelement : xml) : res pyvalue :=
  match xml_text xmlelement with
  | None => Ok VNone
  | Some text => SimpleType_pythonvalue c text
  end.

(** [getattr(value, name)], without default.  It is applied to the synthetic
    names of [elements_nested] only, which no scalar carries. *)
Definition getattr_strict (value : pyvalue) (name : string) : res pyvalue :=
  match value with
  | VCompound _ fields =>
      match dict_get fields name with
      | Some v => Ok v
      | None => Raise (AttributeError ("object has no attribute '" +:+ name +:+ "'"))
      end
  | _ => Raise (AttributeError ("object has no attribute '" +:+ name +:+ "'"))
  end.

(** [parent.set(key, value)] *)
Definition xml_set (x : xml) (key value : string) : xml :=
  match x with
  | XmlElement tag a t cs => XmlElement tag (dict_set a key value) t cs
  end.

Definition xsi_type : string := "{http://www.w3.org/2001/XMLSchema-instance}type".

(** The renderers outside types.py: [attribute.render(parent, value)] and the
    [render(parent, value)] of a composite node; each returns the parent as
    it has left it. *)
Record Renderers : Type := {
  attribute_render : attribute → xml → pyvalue → res xml;
  composite_render : list node → xml → pyvalue → res xml
}.

Section Render.
Variable Y : Renderers.

(** One turn of the attribute loop of render. *)
Definition render_attribute (value : pyvalue) (parent : xml) (a : attribute) : res xml :=
  attribute_render Y a parent (getattr value (attr_name a)).

(** One turn of the element loop of render, over the call [rd] of the
    [render] of an element's type.  The method is looked up before the
    argument [getattr(value, name)] is evaluated. *)
Definition render_node (rd : ref → xml → pyvalue → res xml) (h : heap)
    (value : pyvalue) (parent : xml) (ne : string * node) : res xml :=
  match ne.2 with
  | Single e =>
      match h !! el_type e with
      | Some (OUnionType l) => Raise (no_attribute (OUnionType l) "render")
      | _ => field ← getattr_strict value ne.1; rd (el_type e) parent field
      end
  | Composite l => composite_render Y l parent value
  end.

(** The body of [ComplexType.render(parent, value, xsd_type)]; [xsd_type]
    holds the [_xsd_name] of the explicit subtype when one is given. *)
Definition ComplexType_render_body (rd : ref → xml → pyvalue → res xml)
    (fuel : nat) (h : heap) (r : ref) (parent : xml) (value : pyvalue)
    (xsd_type : option string) : res xml :=
  attrs ← attributes fuel h r;
  parent ← foldM (render_attribute value) parent attrs;
  nested ← elements_nested fuel h r;
  parent ← foldM (render_node rd h value) parent nested;
  match xsd_type with
  | Some name => Ok (xml_set parent xsi_type name)
  | None => Ok parent
  end.

(** [t.render(parent, value)] for the object at [r]. *)
Fixpoint render (fuel : nat) (h : heap) (r : ref) (parent : xml) (value : pyvalue)
    : res xml :=
  match fuel with
  | 0 => OutOfFuel
  | S f =>
      match h !! r with
      | None => Raise InvalidReference
      | Some (OSimpleType c) => SimpleType_render c parent value
      | Some (OListType _) => ListType_render fuel h r parent value
      | Some (OComplexType _ _) =>
          ComplexType_render_body (render f h) fuel h r parent value None
      | Some (OUnionType l) => Raise (no_attribute (OUnionType l) "render")
      | Some _ => Raise (NotImplementedError "")
      end
  end.

(** [ComplexType.render(parent, value, xsd_type)] on the complex type at [r]. *)
Definition ComplexType_render (fuel : nat) (h : heap) (r : ref) (parent : xml)
    (value : pyvalue) (xsd_type : option string) : res xml :=
  match fuel with
  | 0 => OutOfFuel
  | S f => ComplexType_render_body (render f h) fuel h r parent value xsd_type
  end.
End Render.

(** ** What resolve leaves in the store *)

(** An object of the new store stands for one of the old: same class, and
    the same object unless it is a complex, list or union type, the only
    variants whose fields resolve assigns. *)
Definition same_object (o o' : obj) : Prop :=
  class_of o' = class_of o ∧
  match o with
  | OComplexType _ _ => ∃ c d, o' = OComplexType c d
  | OListType _ => ∃ t, o' = OListType t
  | OUnionType _ => ∃ l, o' = OUnionType l
  | _ => o' = o
  end.

Definition store_extends (h h' : heap) : Prop :=
  ∀ q o, h !! q = Some o → ∃ o', h' !! q = Some o' ∧ same_object o o'.

(** A reference to a simple type or to a complex type marked resolved. *)
Definition settled_ref (h : heap) (t : ref) : Prop :=
  (∃ c, h !! t = Some (OSimpleType c)) ∨ is_resolved h t.

(** Every resolved complex type, but those of [S] whose resolution is under
    way, holds settled references only. *)
Definition closed_except (S : list ref) (h : heap) : Prop :=
  ∀ q c d, h !! q = Some (OComplexType c d) → _resolved d = true → q ∉ S →
    Forall (settled_ref h) (complex_refs d).

(** A step of resolve that returns a value holding the references [refs]:
    whenever it returns, on a store of shape [K] closed but for [S], the new
    store has that shape and is closed but for [S], the resolved types are
    kept, and the references returned are settled. *)
Definition call_ok (X : Collaborators) (K : list tag) (S : list ref) {A : Type}
    (refs : A → list ref) (run : heap → res (heap * A)) : Prop :=
  ∀ h h' a, run h = Ok (h', a) → shaped X K h → closed_except S h →
    shaped X K h' ∧ closed_except S h' ∧ keeps h h' ∧
    Forall (settled_ref h') (refs a).

(** The last value bound to [k] in a list of fields. *)
Fixpoint last_binding {V : Type} (l : list (string * V)) (k : string) : option V :=
  match l with
  | [] => None
  | (k', v) :: l' =>
      match last_binding l' k with
      | Some v' => Some v'
      | None => if decide (k' = k) then Some v else None
      end
  end.

Module More.
(** A complex type with simple content: it extends an integer type. *)
Definition PriceClass : cls := Subclass "Price" (Builtin KComplexType) empty_body.

Definition price : heap := [
  OComplexType PriceClass (Complex true None [] None (Some 1));
  OSimpleType Sample.Integer
].

(** Renderers that write a string attribute and nothing for a composite. *)
Definition Y0 : Renderers := {|
  attribute_render a parent v :=
    match v with
    | VStr s => Ok (xml_set parent (attr_name a) s)
    | VNone => Ok parent
    | _ => Raise (TypeError "a string is required")
    end;
  composite_render l parent v := Ok parent
|}.

(** A list of lists that refers back to itself through the registry name
    [tns:Node], and a custom type built on another custom type. *)
Definition list_loop : heap := [OListType 1; OUnresolvedType "tns:Node"].

(** A type that declares an attribute and an element of the same name. *)
Definition clash : heap := [
  OComplexType PriceClass
    (Complex true (Some (Single (Element "id" 1))) [Attribute "id" 1] None None);
  OSimpleType Sample.String_
].

(** Three types with content, each the extension of the next. *)
Definition three_levels : heap := [
  OComplexType PriceClass
    (Complex true (Some (Composite [Single (Element "a" 3)])) [] None (Some 1));
  OComplexType PriceClass
    (Complex true (Some (Composite [Single (Element "b" 3)])) [] None (Some 2));
  OComplexType PriceClass
    (Complex true (Some (Composite [Single (Element "c" 3)])) [] None None);
  OSimpleType Sample.String_
].

(** A complex type whose extension is a list type. *)
Definition extends_list : heap := [
  OComplexType PriceClass (Complex true None [Attribute "unit" 2] None (Some 1));
  OListType 2;
  OSimpleType Sample.String_
].

Definition list_of_names : heap := [
  OListType 2;
  OSimpleType Sample.String_;
  OUnresolvedType "xsd:string"
].

Definition alias_of_alias : heap := [
  OUnresolvedCustomType "Outer" 1;
  OUnresolvedCustomType "Inner" 2;
  OSimpleType Sample.String_
].

Definition union_of_names : heap := [
  OSimpleType Sample.Integer;
  OSimpleType Sample.String_;
  OUnionType [3; 0];
  OUnresolvedType "xsd:string"
].



(** A sequence that holds a choice of two elements. *)
Definition nested_group : heap := [
  OComplexType PriceClass
    (Complex true
       (Some (Composite [Composite [Single (Element "a" 1); Single (Element "b" 1)]]))
       [] None None);
  OSimpleType Sample.String_
].
End More.

(** * Properties *)

(** ** Sequencing *)

Lemma bind_Ok {A B : Type} (m : res A) (k : A → res B) (b : B) :
  m ≫= k = Ok b ↔ ∃ a, m = Ok a ∧ k a = Ok b.
Proof.
  destruct m as [a| |]; simpl.
  - split; [eauto | by intros (? & [= <-] & ?)].
  - split; [done | by intros (? & ? & _)].
  - split; [done | by intros (? & ? & _)].
Qed.

Lemma bind_Ok_l {A B : Type} (m : res A) (k : A → res B) (a : A) :
  m = Ok a → m ≫= k = k a.
Proof. by intros ->. Qed.

Lemma mapM_Forall2 {A B : Type} (f : A → res B) (l : list A) (l' : list B) :
  mapM f l = Ok l' ↔ Forall2 (fun x y => f x = Ok y) l l'.
Proof.
  revert l'. induction l as [|x l IH]; intros l'; simpl.
  - split; [intros [= <-]; constructor | by intros ->%Forall2_nil_inv_l].
  - rewrite bind_Ok. split.
    + intros (y & Hy & Hrest). apply bind_Ok in Hrest as (ys & Hys & [= <-]).
      constructor; [done | by apply IH].
    + intros HF. destruct l' as [|y ys]; [by inversion HF |].
      apply Forall2_cons in HF as [Hy Hys].
      exists y. split; [done |]. apply IH in Hys. by rewrite Hys.
Qed.

(** ** SimpleType.__call__ *)

(** C6: a SimpleType called with an argument count other than one, or with
    one keyword argument not named "value", raises a TypeError whose message
    starts with the name of the type's class; called with one positional
    argument or with the keyword argument "value" it returns the encoding of
    that value by the type's xmlvalue. *)
Theorem SimpleType_call_checks_arguments (X : Collaborators) (c : cls) :
  (∀ args kwargs, length args + length kwargs ≠ 1 →
     ∃ rest, SimpleType_call X c args kwargs
             = Raise (TypeError (class_name c +:+ rest))) ∧
  (∀ key v, key ≠ "value" →
     ∃ rest, SimpleType_call X c [] [(key, v)]
             = Raise (TypeError (class_name c +:+ rest))) ∧
  (∀ v, SimpleType_call X c [v] [] = SimpleType_xmlvalue c v) ∧
  (∀ v, SimpleType_call X c [] [("value", v)] = SimpleType_xmlvalue c v) ∧
  (∀ f v, find_xmlvalue c = Some f → SimpleType_xmlvalue c v = f v).
Proof.
  repeat split.
  - intros args kwargs Hn. unfold SimpleType_call.
    destruct (Nat.eqb_spec (length args + length kwargs) 1) as [|_]; [done |].
    simpl. eauto.
  - intros key v Hkey. unfold SimpleType_call, dict_has. simpl.
    destruct (decide (key = "value")) as [|_]; [done |]. simpl. eauto.
  - intros f v Hf. unfold SimpleType_xmlvalue. by rewrite Hf.
Qed.

Lemma SimpleType_call_checks_arguments_witness :
  (∃ rest, SimpleType_call Sample.X0 Sample.Integer [VInt 1; VInt 2] []
           = Raise (TypeError ("Integer" +:+ rest))) ∧
  (∃ rest, SimpleType_call Sample.X0 Sample.Integer [] [("val", VInt 1)]
           = Raise (TypeError ("Integer" +:+ rest))) ∧
  SimpleType_call Sample.X0 Sample.Integer [] [("value", VInt 42)] = Ok "42".
Proof.
  destruct (SimpleType_call_checks_arguments Sample.X0 Sample.Integer)
    as (Hcount & Hkey & _ & Hvalue & Henc).
  split; [| split].
  - apply (Hcount [VInt 1; VInt 2] []). simpl. lia.
  - apply (Hkey "val" (VInt 1)). discriminate.
  - rewrite Hvalue. by rewrite (Henc _ (VInt 42) eq_refl).
Defined.

(** ** ListType *)

(** C8: rendering a sequence through a ListType sets the parent's text to the
    encodings of the items by the item type, in the order of the items,
    joined with one space. *)
Theorem ListType_render_joins_items (fuel : nat) (h : heap) (r item_type : ref)
    (parent : xml) (items : list pyvalue) (parts : list string) :
  h !! r = Some (OListType item_type) →
  Forall2 (fun v s => xmlvalue fuel h item_type v = Ok s) items parts →
  ListType_render (S fuel) h r parent (VList items)
  = Ok (set_text parent (String.concat " " parts)).
Proof.
  intros Hr Hparts. unfold ListType_render. rewrite Hr. simpl. rewrite Hr. simpl.
  apply mapM_Forall2 in Hparts. by rewrite Hparts.
Qed.

Lemma ListType_render_joins_items_witness :
  ListType_render 2 [OListType 1; OSimpleType Sample.Integer] 0
    (XmlElement "numbers" [] None []) (VList [VInt 1; VInt 2; VInt 3])
  = Ok (XmlElement "numbers" [] (Some "1 2 3") []).
Proof.
  apply (ListType_render_joins_items 1 [OListType 1; OSimpleType Sample.Integer]
           0 1 (XmlElement "numbers" [] None [])
           [VInt 1; VInt 2; VInt 3] ["1"; "2"; "3"]).
  - reflexivity.
  - repeat constructor.
Defined.

(** ** Operations a variant does not implement *)

(** C9 (as amended): an operation invoked on a variant that does not
    implement it never runs a body.  It raises NotImplementedError when the
    lookup ends at a stub of Type or of SimpleType, as for parse on a type
    that only defines resolve; it raises AttributeError when no class of the
    variant's chain defines the operation, which is the case of parse,
    render and serialize on the UnionType, a class that does not derive from
    Type. *)
Theorem unimplemented_operation_raises :
  (∀ k m, implements k m = false →
     (∃ definer msg, find_method k m = Some definer ∧ is_stub definer m = true ∧
                     invoke k m = Raises (NotImplementedError msg)) ∨
     (∃ msg, find_method k m = None ∧ invoke k m = Raises (AttributeError msg))) ∧
  (∀ k, defines k M_resolve = true → k ≠ KType →
     defines k M_parse_xmlelement = false → k ≠ KUnionType →
     invoke k M_parse_xmlelement = Raises (NotImplementedError "")) ∧
  (∀ m, m = M_parse_xmlelement ∨ m = M_parsexml ∨ m = M_render ∨ m = M_serialize →
     ∃ msg, invoke KUnionType m = Raises (AttributeError msg)).
Proof.
  split; [| split].
  - intros k m Himpl. unfold implements, invoke in *.
    destruct (find_method k m) as [definer|] eqn:Hfind.
    + destruct (is_stub definer m) eqn:Hstub; [| done]. left. eauto.
    + right. eauto.
  - intros k Hres Htype Hparse Hunion. by destruct k.
  - intros m [-> | [-> | [-> | ->]]]; unfold invoke; simpl; eauto.
Qed.

Lemma unimplemented_operation_raises_witness :
  invoke KUnresolvedType M_parse_xmlelement = Raises (NotImplementedError "") ∧
  (∃ msg, invoke KUnionType M_render = Raises (AttributeError msg)).
Proof.
  destruct unimplemented_operation_raises as (_ & Hparse & Hunion).
  split.
  - apply (Hparse KUnresolvedType); done.
  - apply (Hunion M_render). auto.
Defined.

(** The UnionType's render does not raise NotImplementedError. *)
Lemma UnionType_render_not_abstract :
  ¬ ∃ msg, invoke KUnionType M_render = Raises (NotImplementedError msg).
Proof. intros [msg Hmsg]. discriminate Hmsg. Qed.

(** ** Effective attributes and content nodes *)

Lemma extension_chain_complex (h : heap) (r : ref) (n : nat) :
  extension_chain h r n → is_complex h r.
Proof. destruct 1; unfold is_complex; eauto. Qed.

Lemma attributes_S (f : nat) (h : heap) (r : ref) :
  attributes (S f) h r =
  match h !! r with
  | None => Raise InvalidReference
  | Some (OComplexType _ d) =>
      result ← match _extension d with
               | Some t => attributes f h t
               | None => Ok []
               end;
      Ok (result ++ _attributes d)
  | Some (OUnionType l) => Raise (no_attribute (OUnionType l) "attributes")
  | Some _ => Ok []
  end.
Proof. done. Qed.

Lemma elements_nested_S (f : nat) (h : heap) (r : ref) :
  elements_nested (S f) h r =
  match h !! r with
  | None => Raise InvalidReference
  | Some (OComplexType _ d) =>
      '(result, num) ←
         match _extension d with
         | Some t =>
             let name := get_name 1 in
             match h !! t with
             | None => Raise InvalidReference
             | Some (OSimpleType _) => Ok ([(name, Single (Element name t))], 1)
             | Some (OComplexType _ _) => l ← elements_nested f h t; Ok (l, 1)
             | Some o => Raise (no_attribute o "elements_nested")
             end
         | None => Ok ([], 0)
         end;
      Ok (result ++ own_nodes num d)
  | Some o => Raise (no_attribute o "elements_nested")
  end.
Proof. done. Qed.

(** Along a chain of extensions both views are computed. *)
Lemma views_of_chain (h : heap) (r : ref) (n : nat) :
  extension_chain h r n →
  ∃ attrs nested,
    attributes (S n) h r = Ok attrs ∧ elements_nested (S n) h r = Ok nested.
Proof.
  induction 1 as [r c d n Hr Hext | r c d t c' n Hr Hext Ht
                 | r c d t n Hr Hext Hchain (attrs & nested & Ha & Hn)];
    rewrite attributes_S, elements_nested_S, Hr, Hext; cbv zeta.
  - eauto.
  - rewrite attributes_S, Ht. simpl. eauto.
  - destruct (extension_chain_complex _ _ _ Hchain) as (c' & d' & Ht).
    rewrite Ht, Ha, Hn. simpl. eauto.
Qed.

(** C7: the effective attributes of a ComplexType are the effective
    attributes of its extension followed by its own, and its effective
    content nodes are the extension's contribution followed by its own
    content node: what the base contributes always comes first. *)
Theorem effective_views_base_first (h : heap) (r : ref) (c : cls) (d : complex)
    (n : nat) :
  h !! r = Some (OComplexType c d) →
  extension_chain h r n →
  ∃ base_attrs base_nodes num,
    attributes (S n) h r = Ok (base_attrs ++ _attributes d) ∧
    elements_nested (S n) h r = Ok (base_nodes ++ own_nodes num d) ∧
    match _extension d with
    | None => base_attrs = [] ∧ base_nodes = [] ∧ num = 0
    | Some t =>
        num = 1 ∧ attributes n h t = Ok base_attrs ∧
        match h !! t with
        | Some (OSimpleType _) =>
            base_nodes = [(get_name 1, Single (Element (get_name 1) t))]
        | _ => elements_nested n h t = Ok base_nodes
        end
    end.
Proof.
  intros Hr Hchain. rewrite attributes_S, elements_nested_S, Hr. cbv zeta.
  inversion Hchain as [r' c' d' n' Hr' Hext | r' c' d' t c'' n' Hr' Hext Ht
                      | r' c' d' t n' Hr' Hext Hsub]; subst;
    rewrite Hr in Hr'; injection Hr' as <- <-; rewrite Hext.
  - exists [], [], 0. done.
  - exists [], [(get_name 1, Single (Element (get_name 1) t))], 1.
    rewrite attributes_S, Ht. done.
  - destruct (views_of_chain _ _ _ Hsub) as (attrs & nested & Ha & Hn).
    destruct (extension_chain_complex _ _ _ Hsub) as (c'' & d'' & Ht).
    exists attrs, nested, 1. rewrite Ht, Ha, Hn. done.
Qed.

Lemma effective_views_base_first_witness :
  attributes 2 Sample.graph 0 = Ok ([Attribute "lang" 1] ++ [Attribute "id" 4]) ∧
  elements_nested 2 Sample.graph 0
  = Ok ([("_value_1", Composite [Single (Element "label" 4)])]
        ++ [("_value_2", Single (Element "next" 3))]).
Proof.
  destruct (effective_views_base_first Sample.graph 0 _ _ 1 eq_refl)
    as (base_attrs & base_nodes & num & Ha & Hn & Hnum & Hba & Hbn).
  - eapply chain_step; [reflexivity | reflexivity |].
    eapply chain_base; reflexivity.
  - vm_compute in Hba, Hbn. injection Hba as <-. injection Hbn as <-.
    subst num. split; [exact Ha | exact Hn].
Defined.

(** ** signature *)

Section Signature.
Variable X : Collaborators.






End Signature.




(** ** Dicts *)

Section DictFacts.
Context {V : Type}.
Implicit Types (d : list (string * V)) (k : string) (v : V).

Lemma dict_keys_set d k v :
  dict_keys (dict_set d k v)
  = if decide (k ∈ dict_keys d) then dict_keys d else dict_keys d ++ [k].
Proof.
  unfold dict_keys. induction d as [|[k' v'] d IH]; cbn [dict_set].
  - destruct (decide (k ∈ [])) as [Hin | Hin]; [by apply elem_of_nil in Hin | done].
  - destruct (decide (k' = k)) as [-> | Hne]; rewrite !fmap_cons; cbn [fst].
    + destruct (decide (k ∈ k :: d.*1)) as [Hin | Hin]; [done |].
      exfalso. apply Hin. by left.
    + rewrite IH.
      destruct (decide (k ∈ d.*1)) as [Hin | Hin];
        destruct (decide (k ∈ k' :: d.*1)) as [Hin' | Hin']; try done.
      * exfalso. apply Hin'. by right.
      * apply elem_of_cons in Hin' as [? | ?]; congruence.
Qed.

Lemma elem_of_dict_keys_set d k v k' :
  k' ∈ dict_keys (dict_set d k v) ↔ k' = k ∨ k' ∈ dict_keys d.
Proof.
  rewrite dict_keys_set. destruct (decide (k ∈ dict_keys d)) as [Hin | Hin].
  - split; [auto | by intros [-> | ?]].
  - rewrite elem_of_app, list_elem_of_singleton. tauto.
Qed.

Lemma dict_update_app d (l1 l2 : list (string * V)) :
  dict_update d (l1 ++ l2) = dict_update (dict_update d l1) l2.
Proof. unfold dict_update. by rewrite fold_left_app. Qed.
End DictFacts.

Lemma foldM_app {A S : Type} (step : S → A → res S) (s : S) (l1 l2 : list A) :
  foldM step s (l1 ++ l2) = (s' ← foldM step s l1; foldM step s' l2).
Proof.
  revert s. induction l1 as [|x l1 IH]; intros s; simpl; [done |].
  destruct (step s x) as [s'| |]; simpl; [apply IH | done | done].
Qed.

(** ** parse_xmlelement *)

Section Parse.
Variable X : Collaborators.

Lemma parse_attribute_undeclared (m : list (string * attribute))
    (kw : list (string * pyvalue)) (kv : string * string) :
  declared m kv = false → parse_attribute X m kw kv = Ok kw.
Proof.
  unfold declared, dict_has, parse_attribute.
  by destruct (dict_get m kv.1).
Qed.

Lemma parse_attribute_declared (m : list (string * attribute))
    (kw : list (string * pyvalue)) (kv : string * string) (f : string * pyvalue) :
  declared m kv = true → decode_attribute X m kv = Ok f →
  parse_attribute X m kw kv = Ok (dict_set kw f.1 f.2).
Proof.
  unfold declared, dict_has, parse_attribute, decode_attribute.
  destruct (dict_get m kv.1) as [attr|]; [| done]. intros _.
  destruct (attr_parse X attr kv.2) as [value| |]; simpl; [| done | done].
  by intros [= <-].
Qed.

(** The attribute loop collects the decoded declared attributes. *)
Lemma parse_attributes_fields (m : list (string * attribute))
    (attribs : list (string * string)) (kw : list (string * pyvalue))
    (fields : list (string * pyvalue)) :
  Forall2 (fun kv f => decode_attribute X m kv = Ok f)
    (filter (fun kv => declared m kv = true) attribs) fields →
  foldM (parse_attribute X m) kw attribs = Ok (dict_update kw fields).
Proof.
  revert kw fields. induction attribs as [|kv attribs IH]; intros kw fields.
  - by intros ->%Forall2_nil_inv_l.
  - rewrite filter_cons. cbn [foldM].
    destruct (decide (declared m kv = true)) as [Hd | Hd].
    + intros Hf. destruct fields as [|f fields]; [by inversion Hf |].
      apply Forall2_cons in Hf as [Hf Hfields].
      rewrite (parse_attribute_declared _ _ _ _ Hd Hf). simpl.
      by rewrite (IH _ _ Hfields).
    + apply not_true_is_false in Hd.
      rewrite (parse_attribute_undeclared _ _ _ Hd). simpl. apply IH.
Qed.

Lemma parse_content_Ok (children : list xml) (kw : list (string * pyvalue))
    (ne : string * node) (result : list (string * pyvalue)) :
  parse_xmlelements X ne.2 children ne.1 = Ok result →
  parse_content X children kw ne = Ok (dict_update kw result).
Proof. unfold parse_content. by intros ->. Qed.

(** The element loop merges what each content node returns. *)
Lemma parse_contents_fields (children : list xml) (nested : list (string * node))
    (kw : list (string * pyvalue)) (results : list (list (string * pyvalue))) :
  Forall2 (fun ne result => parse_xmlelements X ne.2 children ne.1 = Ok result)
    nested results →
  foldM (parse_content X children) kw nested = Ok (dict_update kw (concat results)).
Proof.
  revert kw results. induction nested as [|ne nested IH]; intros kw results.
  - by intros ->%Forall2_nil_inv_l.
  - intros Hr. destruct results as [|result results]; [by inversion Hr |].
    apply Forall2_cons in Hr as [Hr Hresults]. cbn [foldM concat].
    rewrite (parse_content_Ok _ _ _ _ Hr). simpl.
    rewrite (IH _ _ Hresults). by rewrite dict_update_app.
Qed.

Lemma parse_xmlelement_nonempty (fuel : nat) (h : heap) (r : ref) (tag : string)
    (attribs : list (string * string)) (text : option string) (children : list xml) :
  attribs ≠ [] ∨ children ≠ [] →
  parse_xmlelement X fuel h r (XmlElement tag attribs text children)
  = (attrs ← attributes fuel h r;
     init_kwargs ← foldM (parse_attribute X (attr_map attrs)) [] attribs;
     nested ← elements_nested fuel h r;
     init_kwargs ← foldM (parse_content X children) init_kwargs nested;
     ComplexType_call X r init_kwargs).
Proof.
  intros Hne. unfold parse_xmlelement. simpl.
  destruct children as [|x children]; [| done].
  destruct attribs as [|kv attribs]; [| done].
  by destruct Hne.
Qed.

(** C3: parsing an XML element without attributes and without children for
    a ComplexType returns None; with an attribute or a child it returns the
    compound value built from the decoded declared attributes merged with
    the fields that each effective content node returns for the whole list
    of children. *)
Theorem parse_xmlelement_nil_or_compound (fuel : nat) (h : heap) (r : ref) :
  (∀ tag text, parse_xmlelement X fuel h r (XmlElement tag [] text []) = Ok VNone) ∧
  (∀ tag attribs text children attrs nested fields results,
     attribs ≠ [] ∨ children ≠ [] →
     attributes fuel h r = Ok attrs →
     elements_nested fuel h r = Ok nested →
     Forall2 (fun kv f => decode_attribute X (attr_map attrs) kv = Ok f)
       (filter (fun kv => declared (attr_map attrs) kv = true) attribs) fields →
     Forall2 (fun ne result => parse_xmlelements X ne.2 children ne.1 = Ok result)
       nested results →
     parse_xmlelement X fuel h r (XmlElement tag attribs text children)
     = CompoundValue_init X r (dict_update (dict_update [] fields) (concat results))).
Proof.
  split; [done |].
  intros tag attribs text children attrs nested fields results Hne Ha Hn Hf Hr.
  rewrite parse_xmlelement_nonempty by done.
  rewrite (bind_Ok_l _ _ _ Ha).
  rewrite (bind_Ok_l _ _ _ (parse_attributes_fields _ _ [] _ Hf)).
  rewrite (bind_Ok_l _ _ _ Hn).
  by rewrite (bind_Ok_l _ _ _ (parse_contents_fields _ _ _ _ Hr)).
Qed.
End Parse.

Lemma parse_xmlelement_nil_or_compound_witness :
  parse_xmlelement Sample.X0 2 Sample.resolved_graph 0
    (XmlElement "node" [] (Some "text") []) = Ok VNone ∧
  parse_xmlelement Sample.X0 2 Sample.resolved_graph 0
    (XmlElement "node" [("id", "7")] None [XmlElement "label" [] (Some "x") []])
  = Ok (VCompound 0 [("id", VStr "7"); ("label", VNone); ("next", VNone)]).
Proof.
  destruct (parse_xmlelement_nil_or_compound Sample.X0 2 Sample.resolved_graph 0)
    as [Hnil Hcompound].
  split; [apply Hnil |].
  apply (Hcompound "node" [("id", "7")] None [XmlElement "label" [] (Some "x") []]
           [Attribute "lang" 1; Attribute "id" 1]
           [("_value_1", Composite [Single (Element "label" 1)]);
            ("_value_2", Single (Element "next" 0))]
           [("id", VStr "7")]
           [[("label", VNone)]; [("next", VNone)]]).
  - left. discriminate.
  - reflexivity.
  - reflexivity.
  - vm_compute. repeat constructor.
  - repeat constructor.
Defined.

Section ParseSkip.
Variable X : Collaborators.

Lemma parse_attributes_keys (m : list (string * attribute))
    (attribs : list (string * string)) (kw kw' : list (string * pyvalue)) :
  foldM (parse_attribute X m) kw attribs = Ok kw' →
  ∀ key, key ∈ dict_keys kw' → key ∈ dict_keys kw ∨ dict_has m key = true.
Proof.
  revert kw. induction attribs as [|kv attribs IH]; intros kw; cbn [foldM].
  - intros [= <-]. auto.
  - intros (kw1 & Hstep & Hrest)%bind_Ok key Hkey.
    destruct (IH _ Hrest key Hkey) as [Hin | Hin]; [| by right].
    unfold parse_attribute in Hstep. unfold dict_has.
    destruct (dict_get m kv.1) as [attr|] eqn:Hget.
    + apply bind_Ok in Hstep as (value & _ & [= <-]).
      apply elem_of_dict_keys_set in Hin as [-> | Hin]; [| by left].
      right. unfold dict_has. by rewrite Hget.
    + injection Hstep as <-. by left.
Qed.

(** C10: an XML attribute whose name the type does not declare is passed
    over by the attribute loop: the turn raises nothing and leaves the
    fields as they are, so the parse is the parse of the element without
    that attribute and no field of that name comes from the attributes;
    the declared attributes around it are decoded as before. *)
Theorem undeclared_attribute_skipped (fuel : nat) (h : heap) (r : ref)
    (attrs : list attribute) (key value : string) :
  attributes fuel h r = Ok attrs →
  dict_has (attr_map attrs) key = false →
  (∀ kw, parse_attribute X (attr_map attrs) kw (key, value) = Ok kw) ∧
  (∀ kw before after,
     foldM (parse_attribute X (attr_map attrs)) kw (before ++ (key, value) :: after)
     = foldM (parse_attribute X (attr_map attrs)) kw (before ++ after)) ∧
  (∀ attribs kw,
     foldM (parse_attribute X (attr_map attrs)) [] attribs = Ok kw →
     key ∉ dict_keys kw) ∧
  (∀ tag before after text children,
     before ++ after ≠ [] ∨ children ≠ [] →
     parse_xmlelement X fuel h r
       (XmlElement tag (before ++ (key, value) :: after) text children)
     = parse_xmlelement X fuel h r
         (XmlElement tag (before ++ after) text children)).
Proof.
  intros Ha Hkey.
  assert (Hturn : ∀ kw, parse_attribute X (attr_map attrs) kw (key, value) = Ok kw).
  { intros kw. by apply parse_attribute_undeclared. }
  assert (Hloop : ∀ kw before after,
    foldM (parse_attribute X (attr_map attrs)) kw (before ++ (key, value) :: after)
    = foldM (parse_attribute X (attr_map attrs)) kw (before ++ after)).
  { intros kw before after. rewrite !foldM_app.
    destruct (foldM _ kw before) as [kw1| |]; simpl; [| done | done].
    by rewrite Hturn. }
  split; [done |]. split; [done |]. split.
  - intros attribs kw Hkw Hin.
    destruct (parse_attributes_keys _ _ _ _ Hkw key Hin) as [Hnil | Hdecl].
    + by apply elem_of_nil in Hnil.
    + congruence.
  - intros tag before after text children Hne.
    rewrite !parse_xmlelement_nonempty.
    + rewrite !(bind_Ok_l _ _ _ Ha). by rewrite Hloop.
    + done.
    + left. by destruct before.
Qed.
End ParseSkip.

Lemma undeclared_attribute_skipped_witness :
  parse_xmlelement Sample.X0 2 Sample.resolved_graph 0
    (XmlElement "node" ([("id", "7")] ++ ("colour", "red") :: [("lang", "en")]) None [])
  = Ok (VCompound 0 [("id", VStr "7"); ("lang", VStr "en");
                     ("label", VNone); ("next", VNone)]).
Proof.
  destruct (undeclared_attribute_skipped Sample.X0 2 Sample.resolved_graph 0
              [Attribute "lang" 1; Attribute "id" 1] "colour" "red")
    as (_ & _ & _ & Hparse).
  - reflexivity.
  - reflexivity.
  - rewrite Hparse; [reflexivity | left; discriminate].
Defined.

(** ** serialize *)

Section DictOrder.
Context {V : Type}.
Implicit Types (d : list (string * V)) (k : string) (v : V).

Lemma dict_set_fresh d k v :
  k ∉ dict_keys d → dict_set d k v = d ++ [(k, v)].
Proof.
  unfold dict_keys. induction d as [|[k' v'] d IH]; cbn [dict_set]; [done |].
  rewrite fmap_cons. cbn [fst]. intros Hk.
  apply not_elem_of_cons in Hk as [Hne Hk].
  rewrite decide_False by congruence. by rewrite IH.
Qed.

Lemma dict_get_elem_of d k v :
  NoDup (dict_keys d) → dict_get d k = Some v ↔ (k, v) ∈ d.
Proof.
  unfold dict_keys. induction d as [|[k' v'] d IH]; cbn [dict_get].
  - intros _. split; [done | by intros ?%elem_of_nil].
  - rewrite fmap_cons. cbn [fst]. intros [Hk' Hd]%NoDup_cons.
    destruct (decide (k' = k)) as [-> | Hne].
    + split.
      * intros [= ->]. by left.
      * intros [[= ->] | Hin]%elem_of_cons; [done |].
        exfalso. apply Hk'. apply list_elem_of_fmap. by exists (k, v).
    + rewrite (IH Hd). split; [by right |].
      intros [[= ? ?] | Hin]%elem_of_cons; [congruence | done].
Qed.

Lemma dict_get_Permutation d d' k :
  NoDup (dict_keys d) → d ≡ₚ d' → dict_get d k = dict_get d' k.
Proof.
  intros Hd Hperm.
  assert (Hd' : NoDup (dict_keys d')).
  { unfold dict_keys in *. by rewrite <- Hperm. }
  destruct (dict_get d k) as [v|] eqn:Hget.
  - symmetry. apply dict_get_elem_of; [done |]. rewrite <- Hperm.
    by apply dict_get_elem_of.
  - destruct (dict_get d' k) as [v'|] eqn:Hget'; [| done].
    apply dict_get_elem_of in Hget'; [| done]. rewrite <- Hperm in Hget'.
    apply dict_get_elem_of in Hget'; [| done]. congruence.
Qed.
End DictOrder.

Lemma add_keys_NoDup (names acc : list string) :
  NoDup names → (∀ k, k ∈ names → k ∉ acc) →
  fold_left add_key names acc = acc ++ names.
Proof.
  revert acc. induction names as [|k names IH]; intros acc Hnd Hacc; simpl.
  - by rewrite app_nil_r.
  - apply NoDup_cons in Hnd as [Hk Hnd]. unfold add_key at 2.
    rewrite decide_False by (apply Hacc; by left).
    rewrite IH; [by rewrite <- app_assoc | done |].
    intros k' Hk' [Hin | ->%list_elem_of_singleton]%elem_of_app; [| done].
    apply (Hacc k'); [by right | done].
Qed.

Lemma first_occurrences_NoDup (names : list string) :
  NoDup names → first_occurrences names = names.
Proof.
  intros Hnd. unfold first_occurrences.
  rewrite add_keys_NoDup; [done | done |]. intros k _. apply not_elem_of_nil.
Qed.

Lemma foldM_ext {A S : Type} (f g : S → A → res S) (s : S) (l : list A) :
  (∀ s x, f s x = g s x) → foldM f s l = foldM g s l.
Proof.
  intros Hfg. revert s. induction l as [|x l IH]; intros s; simpl; [done |].
  rewrite Hfg. destruct (g s x); simpl; auto.
Qed.

(** Induction on a content node, with the property at hand for every
    member of a composite node. *)
Lemma node_nested_ind (P : node → Prop) :
  (∀ e, P (Single e)) →
  (∀ l, Forall P l → P (Composite l)) →
  ∀ nd, P nd.
Proof.
  intros HS HC. fix IH 1. intros [e | l]; [apply HS |].
  apply HC. induction l as [|x l IHl]; constructor; [apply IH | exact IHl].
Qed.

Lemma node_elements_fst (nd : node) :
  (node_elements nd).*1 = el_name <$> (node_elements nd).*2.
Proof.
  induction nd as [e | l IH] using node_nested_ind; [done |].
  cbn [node_elements]. induction IH as [|x l Hx _ IHl]; [done |].
  rewrite fmap_cons. cbn [concat]. by rewrite !fmap_app, Hx, IHl.
Qed.

Lemma elements_names (nds : list node) :
  (concat (node_elements <$> nds)).*1
  = el_name <$> (concat (node_elements <$> nds)).*2.
Proof.
  induction nds as [|nd nds IH]; [done |].
  rewrite fmap_cons. cbn [concat]. by rewrite !fmap_app, IH, node_elements_fst.
Qed.

(** The members of a node that holds single elements only are its flattened
    elements. *)
Lemma shallow_subfields (nd : node) :
  shallow nd = true → subfields nd = Single <$> (node_elements nd).*2.
Proof.
  destruct nd as [e | l]; [done |]. cbn [shallow subfields node_elements].
  induction l as [|x l IH]; [done |]. cbn [forallb].
  intros [Hx Hl]%andb_prop. destruct x as [e | ?]; [| done].
  rewrite fmap_cons. cbn [node_elements concat app]. rewrite !fmap_cons.
  cbn [snd]. by rewrite <- IH.
Qed.

Section Serialize.
Variable X : Collaborators.

Lemma serialize_node_fields (value : pyvalue) (acc : list (string * pyvalue))
    (name : string) (nd : node) :
  serialize_node X value acc (name, nd)
  = foldM (serialize_field X value) acc (subfields nd).
Proof.
  unfold serialize_node. destruct nd as [e | l]; cbn [snd subfields foldM]; [| done].
  by destruct (serialize_field X value acc (Single e)).
Qed.

(** The two loops of serialize amount to one loop over the members of the
    content nodes. *)
Lemma serialize_nodes_subfields (value : pyvalue) (nested : list (string * node))
    (acc : list (string * pyvalue)) :
  foldM (serialize_node X value) acc nested
  = foldM (serialize_field X value) acc (concat (subfields <$> nested.*2)).
Proof.
  revert acc. induction nested as [|[name nd] nested IH]; intros acc; [done |].
  rewrite !fmap_cons. cbn [snd concat foldM]. rewrite foldM_app.
  rewrite serialize_node_fields.
  destruct (foldM (serialize_field X value) acc _); simpl; auto.
Qed.

(** When no composite node holds another, these members are the flattened
    elements. *)
Lemma shallow_flat (nested : list (string * node)) :
  Forall (fun ne => shallow ne.2 = true) nested →
  concat (subfields <$> nested.*2)
  = Single <$> (concat (node_elements <$> nested.*2)).*2.
Proof.
  induction 1 as [|[name nd] nested Hnd _ IH]; [done |].
  rewrite !fmap_cons. cbn [snd concat] in *.
  by rewrite !fmap_app, IH, (shallow_subfields nd Hnd).
Qed.

Lemma serialize_field_Ok (value : pyvalue) (acc : list (string * pyvalue))
    (e : element) (v : pyvalue) :
  element_serialize X e (getattr value (el_name e)) = Ok v →
  serialize_field X value acc (Single e) = Ok (dict_set acc (el_name e) v).
Proof. unfold serialize_field. cbn [subfield_name subfield_serialize mbind res_bind]. by intros ->. Qed.

Lemma serialize_fields_keys (value : pyvalue) (es : list element)
    (acc : list (string * pyvalue)) :
  (∀ e, e ∈ es → ∃ v, element_serialize X e (getattr value (el_name e)) = Ok v) →
  ∃ result,
    foldM (serialize_field X value) acc (Single <$> es) = Ok result ∧
    dict_keys result = fold_left add_key (el_name <$> es) (dict_keys acc).
Proof.
  revert acc. induction es as [|e es IH]; intros acc Hes.
  - by exists acc.
  - destruct (Hes e) as [v Hv]; [by left |].
    destruct (IH (dict_set acc (el_name e) v)) as (result & Hres & Hkeys).
    { intros e' He'. apply Hes. by right. }
    exists result. rewrite fmap_cons. cbn [foldM].
    rewrite (serialize_field_Ok _ _ _ _ Hv).
    simpl. split; [done |].
    rewrite Hkeys, dict_keys_set. done.
Qed.

Lemma serialize_fields_values (value : pyvalue) (es : list element)
    (vs : list pyvalue) (acc : list (string * pyvalue)) :
  NoDup (el_name <$> es) →
  (∀ k, k ∈ el_name <$> es → k ∉ dict_keys acc) →
  Forall2 (fun e v => element_serialize X e (getattr value (el_name e)) = Ok v)
    es vs →
  foldM (serialize_field X value) acc (Single <$> es)
  = Ok (acc ++ zip (el_name <$> es) vs).
Proof.
  revert acc vs. induction es as [|e es IH]; intros acc vs Hnd Hacc Hvs.
  - apply Forall2_nil_inv_l in Hvs as ->. by rewrite app_nil_r.
  - destruct vs as [|v vs]; [by inversion Hvs |].
    apply Forall2_cons in Hvs as [Hv Hvs]. rewrite fmap_cons in Hnd, Hacc.
    apply NoDup_cons in Hnd as [He Hnd].
    rewrite fmap_cons. cbn [foldM]. rewrite (serialize_field_Ok _ _ _ _ Hv). simpl.
    rewrite dict_set_fresh by (apply Hacc; by left).
    rewrite (IH _ vs); [by rewrite <- app_assoc | done | | done].
    intros k Hk. unfold dict_keys. rewrite fmap_app.
    intros [Hin | Hin%list_elem_of_singleton]%elem_of_app.
    + apply (Hacc k); [by right | done].
    + simpl in Hin. congruence.
Qed.

(** The field read for a subfield does not depend on the order in which
    the fields of the value were supplied. *)
Lemma serialize_field_Permutation (t : ref) (fields fields' : list (string * pyvalue))
    (acc : list (string * pyvalue)) (nd : node) :
  NoDup (dict_keys fields) → fields ≡ₚ fields' →
  serialize_field X (VCompound t fields) acc nd
  = serialize_field X (VCompound t fields') acc nd.
Proof.
  intros Hnd Hperm. unfold serialize_field.
  destruct (subfield_name X nd) as [name| |]; [| done | done].
  cbn [mbind res_bind]. unfold getattr.
  by rewrite (dict_get_Permutation fields fields').
Qed.

(** C4 (as amended): for a type none of whose composite content nodes holds
    another composite node, serialize returns an ordered mapping whose keys
    follow the declared order of the type's flattened elements, each name at
    its first occurrence, whatever the order in which the fields of the
    value were supplied; each value is what the element's own serialize
    returns for the field of that name. *)
Theorem serialize_keys_declared_order (fuel : nat) (h : heap) (r : ref)
    (nested : list (string * node)) (flat : list (string * element)) :
  elements_nested fuel h r = Ok nested →
  Forall (fun ne => shallow ne.2 = true) nested →
  elements fuel h r = Ok flat →
  (∀ value,
     (∀ e, e ∈ flat.*2 →
        ∃ v, element_serialize X e (getattr value (el_name e)) = Ok v) →
     ∃ result,
       serialize X fuel h r value = Ok result ∧
       dict_keys result = first_occurrences flat.*1 ∧
       (NoDup flat.*1 → dict_keys result = flat.*1)) ∧
  (∀ value vs,
     NoDup flat.*1 →
     Forall2 (fun e v => element_serialize X e (getattr value (el_name e)) = Ok v)
       flat.*2 vs →
     serialize X fuel h r value = Ok (zip flat.*1 vs)) ∧
  (∀ t fields fields',
     NoDup (dict_keys fields) → fields ≡ₚ fields' →
     serialize X fuel h r (VCompound t fields)
     = serialize X fuel h r (VCompound t fields')).
Proof.
  intros Hn Hshallow. unfold elements. rewrite (bind_Ok_l _ _ _ Hn).
  intros [= <-].
  assert (Hloop : ∀ value, serialize X fuel h r value
                           = foldM (serialize_field X value) []
                               (concat (subfields <$> nested.*2))).
  { intros value. unfold serialize. rewrite (bind_Ok_l _ _ _ Hn).
    apply serialize_nodes_subfields. }
  assert (Hser : ∀ value, serialize X fuel h r value
                          = foldM (serialize_field X value) []
                              (Single <$> (concat (node_elements <$> nested.*2)).*2)).
  { intros value. by rewrite Hloop, (shallow_flat nested Hshallow). }
  pose proof (elements_names nested.*2) as Hnames.
  split; [| split].
  - intros value Hes.
    destruct (serialize_fields_keys value _ [] Hes) as (result & Hres & Hkeys).
    exists result. rewrite Hser. split; [done |].
    rewrite Hnames. split; [done |].
    intros Hnd. rewrite Hkeys. by apply first_occurrences_NoDup.
  - intros value vs Hnd Hvs. rewrite Hser, Hnames.
    rewrite Hnames in Hnd.
    rewrite (serialize_fields_values value _ vs []); [done | done | | done].
    intros k _. apply not_elem_of_nil.
  - intros t fields fields' Hnd Hperm. rewrite !Hloop. apply foldM_ext.
    intros acc nd. by apply serialize_field_Permutation.
Qed.
End Serialize.

Lemma serialize_keys_declared_order_witness :
  serialize Sample.X0 2 Sample.resolved_graph 0
    (VCompound 0 [("next", VNone); ("label", VStr "a")])
  = Ok [("label", VStr "a"); ("next", VNone)].
Proof.
  destruct (serialize_keys_declared_order Sample.X0 2 Sample.resolved_graph 0
              [("_value_1", Composite [Single (Element "label" 1)]);
               ("_value_2", Single (Element "next" 0))]
              [("label", Element "label" 1); ("next", Element "next" 0)]
              eq_refl)
    as (_ & Hvalues & _).
  - repeat constructor.
  - reflexivity.
  - apply (Hvalues (VCompound 0 [("next", VNone); ("label", VStr "a")])
             [VStr "a"; VNone]).
    + apply NoDup_cons. split; [by intros ?%list_elem_of_singleton |].
      apply NoDup_singleton.
    + repeat constructor.
Defined.

(** A sequence that holds a choice of the elements [a] and [b] has the
    flattened elements [a] and [b], but serialize walks one level only: it
    stores at most one entry, under the name of the choice, whatever the
    name and the serialize of a composite node are. *)
Lemma serialize_keeps_nested_group :
  elements 1 More.nested_group 0
  = Ok [("a", Element "a" 1); ("b", Element "b" 1)] ∧
  ¬ ∃ (X : Collaborators) (value : pyvalue) (result : list (string * pyvalue)),
      serialize X 1 More.nested_group 0 value = Ok result ∧
      dict_keys result = ["a"; "b"].
Proof.
  split; [reflexivity |].
  intros (X & value & result & Hser & Hkeys).
  unfold serialize in Hser. cbn in Hser.
  unfold serialize_field in Hser. cbn [subfield_name subfield_serialize] in Hser.
  destruct (composite_name X _) as [name| |]; [| done | done].
  cbn [mbind res_bind] in Hser.
  destruct (composite_serialize X _ _) as [v| |]; [| done | done].
  cbn in Hser. injection Hser as <-. discriminate Hkeys.
Qed.

(** ** UnresolvedCustomType.resolve *)

(** C2 (as amended): when the base of an UnresolvedCustomType, resolved first
    if it is an UnresolvedType, is an instance of a SimpleType class, resolve
    returns a new object, distinct from every object of the store, whose
    class carries the given name and derives from the class of the base with
    an empty body: it inherits the base's encoder, decoder and type name and
    adds nothing. *)
Theorem UnresolvedCustomType_resolve_subclass (X : Collaborators) (f : nat)
    (h h1 : heap) (r base_qname base : ref) (name : string) (c : cls) :
  h !! r = Some (OUnresolvedCustomType name base_qname) →
  match h !! base_qname with
  | Some (OUnresolvedType _) => resolve X f h base_qname = Ok (h1, base)
  | _ => h1 = h ∧ base = base_qname
  end →
  h1 !! base = Some (OSimpleType c) →
  root c = KSimpleType →
  let new := Subclass name c empty_body in
  resolve X (S f) h r = Ok (h1 ++ [OSimpleType new], length h1) ∧
  h1 !! length h1 = None ∧
  length h1 ≠ base ∧
  (h1 ++ [OSimpleType new]) !! base = Some (OSimpleType c) ∧
  class_name new = name ∧
  find_xmlvalue new = find_xmlvalue c ∧
  find_pythonvalue new = find_pythonvalue c ∧
  find_name new = find_name c.
Proof.
  intros Hr Hbase Hc Hroot new.
  assert (Hlt : base < length h1) by (by eapply lookup_lt_Some).
  repeat split; try done.
  - cbn [resolve]. rewrite Hr.
    assert (Hfirst :
      match h !! base_qname with
      | Some (OUnresolvedType _) => resolve X f h base_qname
      | _ => Ok (h, base_qname)
      end = Ok (h1, base)).
    { destruct (h !! base_qname) as [[]|]; first [exact Hbase | by destruct Hbase as [-> ->]]. }
    rewrite (bind_Ok_l _ _ _ Hfirst). simpl. rewrite Hc.
    unfold instantiate. cbn [root class_of]. by rewrite Hroot.
  - by apply lookup_ge_None.
  - lia.
  - by apply lookup_app_l_Some.
Qed.

Lemma UnresolvedCustomType_resolve_subclass_witness :
  resolve Sample.X0 3 Sample.alias_of_simple 0
  = Ok (Sample.alias_of_simple
        ++ [OSimpleType (Subclass "Token" Sample.String_ empty_body)], 3) ∧
  find_name (Subclass "Token" Sample.String_ empty_body) = Some "xsd:string".
Proof.
  destruct (UnresolvedCustomType_resolve_subclass Sample.X0 2
              Sample.alias_of_simple Sample.alias_of_simple 0 2 1 "Token"
              Sample.String_)
    as (Hres & _ & _ & _ & _ & _ & _ & Hname).
  - reflexivity.
  - reflexivity.
  - reflexivity.
  - reflexivity.
  - split; [exact Hres | exact Hname].
Defined.

(** The custom type derived from a complex type does not carry the
    attributes of its base. *)
Lemma UnresolvedCustomType_drops_instance_structure :
  ¬ (∀ h' r', resolve Sample.X0 1 Sample.alias_of_complex 2 = Ok (h', r') →
              attributes 2 h' r' = attributes 2 h' 0).
Proof.
  intros Hsame. specialize (Hsame _ _ eq_refl). vm_compute in Hsame.
  discriminate Hsame.
Qed.

(** ** Assignments to a ComplexType in the store *)

Lemma modify_lookup_ne (h : heap) (r q : ref) (g : complex → complex) :
  q ≠ r → modify h r g !! q = h !! q.
Proof.
  intros Hne. unfold modify. destruct (h !! r) as [[]|]; try done.
  by apply list_lookup_insert_ne.
Qed.

Lemma modify_lookup_eq (h : heap) (r : ref) (g : complex → complex)
    (c : cls) (d : complex) :
  h !! r = Some (OComplexType c d) →
  modify h r g !! r = Some (OComplexType c (g d)).
Proof.
  intros Hr. unfold modify. rewrite Hr. apply list_lookup_insert_eq.
  by eapply lookup_lt_Some.
Qed.

Lemma modify_not_complex (h : heap) (r : ref) (g : complex → complex) :
  complex_at h r = None → modify h r g = h.
Proof. unfold complex_at, modify. by destruct (h !! r) as [[]|]. Qed.

Lemma complex_at_Some (h : heap) (r : ref) (d : complex) :
  complex_at h r = Some d → ∃ c, h !! r = Some (OComplexType c d).
Proof.
  unfold complex_at. destruct (h !! r) as [[]|]; try done.
  intros [= ->]. eauto.
Qed.

(** ** Resolved types are left alone *)

Lemma keeps_refl (h : heap) : keeps h h.
Proof. by intros r c d Hr Hd. Qed.

Lemma keeps_trans (h1 h2 h3 : heap) : keeps h1 h2 → keeps h2 h3 → keeps h1 h3.
Proof. intros H12 H23 r c d Hr Hd. apply H23; [by apply H12 | done]. Qed.

Lemma keeps_except_refl (r : ref) (h : heap) : keeps_except r h h.
Proof. split; [done | by intros q c d _ Hq Hd]. Qed.

Lemma keeps_except_trans (r : ref) (h1 h2 h3 : heap) :
  keeps_except r h1 h2 → keeps_except r h2 h3 → keeps_except r h1 h3.
Proof.
  intros [Hr12 H12] [Hr23 H23]. split; [auto |].
  intros q c d Hne Hq Hd. apply H23; [done | by apply H12 | done].
Qed.

(** A call that keeps the resolved types, followed by an assignment to a
    field of [r] other than the flag. *)
Lemma keeps_then_modify (r : ref) (h h' : heap) (g : complex → complex) :
  keeps h h' → (∀ d, _resolved (g d) = _resolved d) →
  keeps_except r h (modify h' r g).
Proof.
  intros Hkeeps Hg. split.
  - intros (c & d & Hr & Hd). exists c, (g d). split.
    + apply modify_lookup_eq. by apply Hkeeps.
    + by rewrite Hg.
  - intros q c d Hne Hq Hd. rewrite modify_lookup_ne by done. by apply Hkeeps.
Qed.

Lemma keeps_keeps_except (r : ref) (h h' : heap) : keeps h h' → keeps_except r h h'.
Proof.
  intros Hkeeps. split.
  - intros (c & d & Hr & Hd). exists c, d. split; [by apply Hkeeps | done].
  - intros q c d _ Hq Hd. by apply Hkeeps.
Qed.

(** The equations of the resolve of a content node. *)
Lemma resolve_children_nil (rn : heap → node → res (heap * node)) (h : heap) :
  resolve_children rn h [] = Ok (h, []).
Proof. reflexivity. Qed.

Lemma resolve_children_cons (rn : heap → node → res (heap * node)) (h : heap)
    (x : node) (l : list node) :
  resolve_children rn h (x :: l)
  = '(h1, x') ← rn h x;
    '(h2, l') ← resolve_children rn h1 l;
    Ok (h2, x' :: l').
Proof. reflexivity. Qed.

Lemma resolve_node_Composite (rs : heap → ref → res (heap * ref)) (h : heap)
    (l : list node) :
  resolve_node rs h (Composite l)
  = '(h', l') ← resolve_children (resolve_node rs) h l; Ok (h', Composite l').
Proof. reflexivity. Qed.

(** A preorder on stores that every recursive call respects is respected
    by the resolve of a content node. *)
Section NodeSteps.
Variable R : heap → heap → Prop.
Hypothesis R_refl : ∀ h, R h h.
Hypothesis R_trans : ∀ h1 h2 h3, R h1 h2 → R h2 h3 → R h1 h3.

Lemma resolve_children_rel (rn : heap → node → res (heap * node)) (l : list node) :
  Forall (fun x => ∀ h h' x', rn h x = Ok (h', x') → R h h') l →
  ∀ h h' l', resolve_children rn h l = Ok (h', l') → R h h'.
Proof using R_refl R_trans.
  induction 1 as [|x l Hx _ IH]; intros h h' l'.
  - rewrite resolve_children_nil. intros [= <- <-]. apply R_refl.
  - rewrite resolve_children_cons.
    intros ([h1 x'] & Hrn & ([h2 l''] & Hl & [= <- <-])%bind_Ok)%bind_Ok.
    eapply R_trans; [by eapply Hx | by eapply IH].
Qed.

Lemma resolve_node_rel (rs : heap → ref → res (heap * ref)) :
  (∀ h t h' t', rs h t = Ok (h', t') → R h h') →
  ∀ nd h h' nd', resolve_node rs h nd = Ok (h', nd') → R h h'.
Proof using R_refl R_trans.
  intros Hrs nd. induction nd as [e | l IH] using node_nested_ind; intros h h' nd'.
  - cbn [resolve_node]. unfold resolve_element.
    intros ([h1 e'] & ([h2 t] & Ht & [= <- <-])%bind_Ok & [= <- <-])%bind_Ok.
    by eapply Hrs.
  - rewrite resolve_node_Composite.
    intros ([h1 l'] & Hl & [= <- <-])%bind_Ok.
    by eapply resolve_children_rel.
Qed.
End NodeSteps.

Section KeepsSteps.
Variable rs : heap → ref → res (heap * ref).
Hypothesis rs_keeps : ∀ h t h' t', rs h t = Ok (h', t') → keeps h h'.

Lemma resolve_element_keeps (h h' : heap) (e e' : element) :
  resolve_element rs h e = Ok (h', e') → keeps h h'.
Proof using rs_keeps.
  unfold resolve_element. intros ([h1 t] & Hrs & [= <- <-])%bind_Ok. eauto.
Qed.

Lemma resolve_attribute_keeps (h h' : heap) (a a' : attribute) :
  resolve_attribute rs h a = Ok (h', a') → keeps h h'.
Proof using rs_keeps.
  unfold resolve_attribute. intros ([h1 t] & Hrs & [= <- <-])%bind_Ok. eauto.
Qed.

Lemma resolve_node_keeps (nd nd' : node) (h h' : heap) :
  resolve_node rs h nd = Ok (h', nd') → keeps h h'.
Proof using rs_keeps.
  apply (resolve_node_rel keeps keeps_refl); [| exact rs_keeps].
  intros h1 h2 h3. apply keeps_trans.
Qed.

Lemma resolve_items_keeps (l l' : list ref) (h h' : heap) :
  resolve_items rs h l = Ok (h', l') → keeps h h'.
Proof using rs_keeps.
  revert h l'. induction l as [|t l IH]; intros h l'; cbn [resolve_items].
  - intros [= <- <-]. apply keeps_refl.
  - intros ([h1 t'] & Ht & ([h2 l''] & Hl & [= <- <-])%bind_Ok)%bind_Ok.
    eapply keeps_trans; [by eapply rs_keeps | by eapply IH].
Qed.

Lemma resolve_extension_keeps (h h' : heap) (r : ref) :
  resolve_extension rs h r = Ok h' → keeps_except r h h'.
Proof using rs_keeps.
  unfold resolve_extension.
  destruct (complex_at h r) as [d|]; [| intros [= <-]; apply keeps_except_refl].
  destruct (_extension d) as [t|]; [| intros [= <-]; apply keeps_except_refl].
  intros ([h1 t'] & Hrs & [= <-])%bind_Ok.
  apply keeps_then_modify; [by eapply rs_keeps | done].
Qed.

Lemma resolve_restriction_keeps (h h' : heap) (r : ref) :
  resolve_restriction rs h r = Ok h' → keeps_except r h h'.
Proof using rs_keeps.
  unfold resolve_restriction.
  destruct (complex_at h r) as [d|]; [| intros [= <-]; apply keeps_except_refl].
  destruct (_restriction d) as [t|]; [| intros [= <-]; apply keeps_except_refl].
  intros ([h1 t'] & Hrs & [= <-])%bind_Ok.
  apply keeps_then_modify; [by eapply rs_keeps | done].
Qed.

Lemma resolve_content_keeps (h h' : heap) (r : ref) :
  resolve_content rs h r = Ok h' → keeps_except r h h'.
Proof using rs_keeps.
  unfold resolve_content.
  destruct (complex_at h r) as [d|]; [| intros [= <-]; apply keeps_except_refl].
  destruct (_element d) as [nd|]; [| intros [= <-]; apply keeps_except_refl].
  destruct (node_truthy nd); [| intros [= <-]; apply keeps_except_refl].
  intros ([h1 nd'] & Hnd & [= <-])%bind_Ok.
  apply keeps_then_modify; [by eapply resolve_node_keeps | done].
Qed.

Lemma resolve_attributes_keeps (n i : nat) (h h' : heap) (r : ref) :
  resolve_attributes rs n i h r = Ok h' → keeps_except r h h'.
Proof using rs_keeps.
  revert i h. induction n as [|n IH]; intros i h; cbn [resolve_attributes].
  - intros [= <-]. apply keeps_except_refl.
  - destruct (complex_at h r) as [d|]; [| intros [= <-]; apply keeps_except_refl].
    destruct (_attributes d !! i) as [a|];
      [| intros [= <-]; apply keeps_except_refl].
    intros ([h1 a'] & Ha & Hrest)%bind_Ok.
    eapply keeps_except_trans; [| by eapply IH].
    apply keeps_then_modify; [by eapply resolve_attribute_keeps | done].
Qed.

Lemma ComplexType_resolve_keeps (h h' : heap) (r r' : ref) (c : cls) (d : complex) :
  h !! r = Some (OComplexType c d) →
  ComplexType_resolve rs h r d = Ok (h', r') →
  r' = r ∧ is_resolved h' r ∧ keeps h h'.
Proof using rs_keeps.
  intros Hr. unfold ComplexType_resolve. destruct (_resolved d) eqn:Hd.
  - intros [= <- <-]. split; [done |]. split; [| apply keeps_refl].
    by exists c, d.
  - intros (h1 & H1 & (h2 & H2 & (h3 & H3 & (h4 & H4 & [= <- <-])%bind_Ok)
              %bind_Ok)%bind_Ok)%bind_Ok.
    assert (Hsteps : keeps_except r (modify h r set_resolved) h4).
    { eapply keeps_except_trans; [by eapply resolve_extension_keeps |].
      eapply keeps_except_trans; [by eapply resolve_restriction_keeps |].
      eapply keeps_except_trans; [by eapply resolve_content_keeps |].
      by eapply resolve_attributes_keeps. }
    destruct Hsteps as [Hflag Hothers]. split; [done |]. split.
    + apply Hflag. exists c, (set_resolved d).
      split; [by apply modify_lookup_eq | done].
    + intros q c' d' Hq Hd'.
      assert (q ≠ r) by (intros ->; congruence).
      apply Hothers; [done | by rewrite modify_lookup_ne | done].
Qed.
End KeepsSteps.

Lemma resolve_keeps (X : Collaborators) (f : nat) (h : heap) (t : ref)
    (h' : heap) (t' : ref) :
  resolve X f h t = Ok (h', t') → keeps h h'.
Proof.
  revert h t h' t'. induction f as [|f IH]; intros h t h' t'; [done |].
  cbn [resolve]. destruct (h !! t) as [o|] eqn:Ht; [| done].
  destruct o as [c | qname | name base_qname | c | c d | item_type | item_types];
    try done.
  - intros (retval & _ & Hres)%bind_Ok. by eapply IH.
  - intros ([h1 base] & Hbase & Hnew)%bind_Ok.
    assert (Hh1 : keeps h h1).
    { destruct (h !! base_qname) as [[]|];
        first [by eapply IH | injection Hbase as <- <-; apply keeps_refl]. }
    destruct (h1 !! base) as [o|]; [| done].
    apply bind_Ok in Hnew as (o' & _ & [= <- <-]).
    eapply keeps_trans; [done |]. intros q c d Hq _. by apply lookup_app_l_Some.
  - intros [= <- <-]. apply keeps_refl.
  - intros Hres. by eapply (ComplexType_resolve_keeps _ IH).
  - intros ([h1 t1] & Hres & [= <- <-])%bind_Ok. intros q c d Hq Hd.
    rewrite list_lookup_insert_ne by (intros ->; congruence).
    by eapply IH.
  - intros ([h1 l] & Hres & [= <- <-])%bind_Ok. intros q c d Hq Hd.
    rewrite list_lookup_insert_ne by (intros ->; congruence).
    by eapply (resolve_items_keeps _ IH).
Qed.

(** Resolving a complex type returns that type, marked resolved. *)
Lemma resolve_complex_resolved (X : Collaborators) (f : nat) (h : heap) (r : ref)
    (h' : heap) (r' : ref) :
  is_complex h r → resolve X f h r = Ok (h', r') → r' = r ∧ is_resolved h' r.
Proof.
  intros (c & d & Hr). destruct f as [|f]; [done |]. cbn [resolve]. rewrite Hr.
  intros Hres.
  destruct (ComplexType_resolve_keeps _ (resolve_keeps X f) _ _ _ _ _ _ Hr Hres)
    as (? & ? & _).
  done.
Qed.

(** On a resolved complex type resolve returns at once: it makes no call. *)
Lemma resolve_resolved (X : Collaborators) (f : nat) (h : heap) (r : ref) :
  is_resolved h r → resolve X (S f) h r = Ok (h, r).
Proof.
  intros (c & d & Hr & Hd). cbn [resolve]. rewrite Hr.
  unfold ComplexType_resolve. by rewrite Hd.
Qed.

(** ** Shape of the store under resolve *)

Lemma tags_modify (h : heap) (r : ref) (g : complex → complex) :
  tags (modify h r g) = tags h.
Proof.
  unfold modify, tags. destruct (h !! r) as [[]|] eqn:Hr; try done.
  rewrite list_fmap_insert. apply list_insert_id.
  by rewrite list_lookup_fmap, Hr.
Qed.

Lemma pending_insert (h : heap) (r : ref) (o o' : obj) :
  h !! r = Some o →
  pending (<[r := o']> h) + (if is_pending o then 1 else 0)
  = pending h + (if is_pending o' then 1 else 0).
Proof.
  revert r. induction h as [|x h IH]; intros [|r]; simpl; try done.
  - intros [= ->]. lia.
  - intros Hr. specialize (IH r Hr). lia.
Qed.

Lemma pending_modify (h : heap) (r : ref) (g : complex → complex) :
  (∀ d, _resolved (g d) = _resolved d) → pending (modify h r g) = pending h.
Proof.
  intros Hg. unfold modify. destruct (h !! r) as [[]|] eqn:Hr; try done.
  pose proof (pending_insert h r _ (OComplexType c (g d)) Hr) as Hins.
  simpl in Hins. rewrite Hg in Hins. lia.
Qed.

Lemma pending_set_resolved (h : heap) (r : ref) (c : cls) (d : complex) :
  h !! r = Some (OComplexType c d) → _resolved d = false →
  S (pending (modify h r set_resolved)) = pending h.
Proof.
  intros Hr Hd. unfold modify. rewrite Hr.
  pose proof (pending_insert h r _ (OComplexType c (set_resolved d)) Hr) as Hins.
  simpl in Hins. rewrite Hd in Hins. simpl in Hins. lia.
Qed.

Lemma forallb_Forall_true {A : Type} (f : A → bool) (l : list A) :
  forallb f l = true ↔ Forall (fun x => f x = true) l.
Proof.
  induction l as [|x l IH]; simpl; [by split |].
  rewrite andb_true_iff, Forall_cons, IH. done.
Qed.

Section ShapeFacts.
Variable X : Collaborators.
Implicit Types (K : list tag) (h : heap) (d : complex).

Lemma concrete_good K t : concrete K t = true → good X K t = true.
Proof. unfold concrete, good. by destruct (K !! t) as [[]|]. Qed.

Lemma concrete_tags h t :
  concrete (tags h) t
  = match h !! t with
    | Some (OSimpleType _) | Some (OComplexType _ _) => true
    | _ => false
    end.
Proof.
  unfold concrete, tags. rewrite list_lookup_fmap.
  by destruct (h !! t) as [[]|].
Qed.

Lemma concrete_lookup h t :
  concrete (tags h) t = true →
  (∃ c, h !! t = Some (OSimpleType c)) ∨ (∃ c d, h !! t = Some (OComplexType c d)).
Proof.
  rewrite concrete_tags. destruct (h !! t) as [[]|]; try done; eauto.
Qed.

Lemma good_cases h t :
  good X (tags h) t = true →
  concrete (tags h) t = true ∨
  ∃ q t', h !! t = Some (OUnresolvedType q) ∧ get_type X q = Ok t' ∧
          concrete (tags h) t' = true.
Proof.
  rewrite (concrete_tags h t). unfold good. unfold tags at 1.
  rewrite list_lookup_fmap.
  destruct (h !! t) as [[]|]; simpl; try done; auto.
  destruct (get_type X qname) as [t'| |] eqn:Hq; try done.
  intros Ht'. right. eauto.
Qed.

Lemma obj_ok_complex K c d : obj_ok X K (OComplexType c d) = true ↔ refs_good X K d.
Proof. apply forallb_Forall_true. Qed.

Lemma refs_good_fields K d :
  refs_good X K d ↔
  (∀ t, _extension d = Some t → good X K t = true) ∧
  (∀ t, _restriction d = Some t → good X K t = true) ∧
  (∀ nd, _element d = Some nd → Forall (fun t => good X K t = true) (node_refs nd)) ∧
  Forall (fun t => good X K t = true) (attr_type <$> _attributes d).
Proof.
  unfold refs_good, complex_refs. rewrite !Forall_app.
  destruct (_extension d) as [e|], (_restriction d) as [s|], (_element d) as [nd|];
    simpl; rewrite ?Forall_singleton; split.
  all: try (intros (He & Hs & Hn & Ha)).
  all: repeat split; try done.
  all: try (by intros ? [= <-]).
  all: try (by apply He).
  all: try (by apply Hs).
  all: try (by apply Hn).
Qed.

Lemma graph_ok_lookup h r o : graph_ok X h → h !! r = Some o → obj_ok X (tags h) o = true.
Proof. intros Hok Hr. by apply (Forall_lookup_1 _ _ _ _ Hok Hr). Qed.

Lemma graph_ok_refs h r c d :
  graph_ok X h → h !! r = Some (OComplexType c d) → refs_good X (tags h) d.
Proof. intros Hok Hr. apply (obj_ok_complex _ c). by eapply graph_ok_lookup. Qed.

Lemma shaped_fields K h r c d :
  shaped X K h → h !! r = Some (OComplexType c d) →
  (∀ t, _extension d = Some t → good X K t = true) ∧
  (∀ t, _restriction d = Some t → good X K t = true) ∧
  (∀ nd, _element d = Some nd → Forall (fun t => good X K t = true) (node_refs nd)) ∧
  Forall (fun t => good X K t = true) (attr_type <$> _attributes d).
Proof.
  intros [<- Hok] Hr. apply refs_good_fields. by eapply graph_ok_refs.
Qed.

Lemma shaped_modify K h r g :
  shaped X K h → (∀ d, refs_good X K d → refs_good X K (g d)) →
  shaped X K (modify h r g).
Proof.
  intros [Htags Hok] Hg. split; [by rewrite tags_modify |].
  unfold graph_ok. rewrite tags_modify. unfold modify.
  destruct (h !! r) as [[]|] eqn:Hr; try done.
  apply Forall_insert; [done |]. apply obj_ok_complex. rewrite Htags.
  apply Hg. rewrite <- Htags. by eapply graph_ok_refs.
Qed.
End ShapeFacts.

Section TotalSteps.
Local Open Scope nat_scope.
Variable X : Collaborators.
Variable K : list tag.
Variable m : nat.
Variable rs : heap → ref → res (heap * ref).
Hypothesis rs_total : ∀ h t,
  shaped X K h → pending h ≤ m → good X K t = true →
  ∃ h' t', rs h t = Ok (h', t') ∧ shaped X K h' ∧ pending h' ≤ pending h ∧
           concrete K t' = true.

Lemma resolve_element_total (h : heap) (e : element) :
  shaped X K h → pending h ≤ m → good X K (el_type e) = true →
  ∃ h' e', resolve_element rs h e = Ok (h', e') ∧ shaped X K h' ∧
           pending h' ≤ pending h ∧ good X K (el_type e') = true.
Proof using rs_total.
  intros Hsh Hp Hgood.
  destruct (rs_total h _ Hsh Hp Hgood) as (h' & t' & Hrs & Hsh' & Hp' & Ht').
  exists h', (Element (el_name e) t'). unfold resolve_element. rewrite Hrs.
  split; [done |]. split; [done |]. split; [done | by apply concrete_good].
Qed.

Lemma resolve_attribute_total (h : heap) (a : attribute) :
  shaped X K h → pending h ≤ m → good X K (attr_type a) = true →
  ∃ h' a', resolve_attribute rs h a = Ok (h', a') ∧ shaped X K h' ∧
           pending h' ≤ pending h ∧ good X K (attr_type a') = true.
Proof using rs_total.
  intros Hsh Hp Hgood.
  destruct (rs_total h _ Hsh Hp Hgood) as (h' & t' & Hrs & Hsh' & Hp' & Ht').
  exists h', (Attribute (attr_name a) t'). unfold resolve_attribute. rewrite Hrs.
  split; [done |]. split; [done |]. split; [done | by apply concrete_good].
Qed.

Lemma resolve_children_total (rn : heap → node → res (heap * node)) (l : list node) :
  Forall (fun x => ∀ h,
            shaped X K h → pending h ≤ m →
            Forall (fun t => good X K t = true) (node_refs x) →
            ∃ h' x', rn h x = Ok (h', x') ∧ shaped X K h' ∧
                     pending h' ≤ pending h ∧
                     Forall (fun t => good X K t = true) (node_refs x')) l →
  ∀ h,
    shaped X K h → pending h ≤ m →
    Forall (fun t => good X K t = true) (concat (node_refs <$> l)) →
    ∃ h' l', resolve_children rn h l = Ok (h', l') ∧ shaped X K h' ∧
             pending h' ≤ pending h ∧
             Forall (fun t => good X K t = true) (concat (node_refs <$> l')).
Proof.
  induction 1 as [|x l Hx _ IH]; intros h Hsh Hp Hgood.
  - exists h, []. split; [done |]. split; [done |]. split; [done | constructor].
  - rewrite fmap_cons in Hgood. cbn [concat] in Hgood.
    apply Forall_app in Hgood as [Hgx Hgl].
    destruct (Hx h Hsh Hp Hgx) as (h1 & x' & Hx' & Hsh1 & Hp1 & Hgood1).
    destruct (IH h1 Hsh1 ltac:(lia) Hgl) as (h2 & l' & Hl' & Hsh2 & Hp2 & Hgood2).
    exists h2, (x' :: l'). rewrite resolve_children_cons, Hx'. simpl.
    rewrite Hl'. simpl. split; [done |]. split; [done |]. split; [lia |].
    by apply (Forall_app _ (node_refs x') (concat (node_refs <$> l'))).
Qed.

Lemma resolve_node_total (nd : node) (h : heap) :
  shaped X K h → pending h ≤ m →
  Forall (fun t => good X K t = true) (node_refs nd) →
  ∃ h' nd', resolve_node rs h nd = Ok (h', nd') ∧ shaped X K h' ∧
            pending h' ≤ pending h ∧
            Forall (fun t => good X K t = true) (node_refs nd').
Proof using rs_total.
  revert h. induction nd as [e | l IH] using node_nested_ind; intros h Hsh Hp Hgood.
  - cbn [resolve_node node_refs] in *. rewrite Forall_singleton in Hgood.
    destruct (resolve_element_total h e Hsh Hp Hgood)
      as (h' & e' & He' & Hsh' & Hp' & Hgood').
    exists h', (Single e'). rewrite He'. simpl.
    split; [done |]. split; [done |]. split; [done | by apply Forall_singleton].
  - cbn [node_refs] in Hgood.
    destruct (resolve_children_total (resolve_node rs) l IH h Hsh Hp Hgood)
      as (h' & l' & Hl' & Hsh' & Hp' & Hgood').
    exists h', (Composite l'). rewrite resolve_node_Composite, Hl'. simpl. done.
Qed.

Lemma refs_good_set_extension (t : ref) (d : complex) :
  good X K t = true → refs_good X K d → refs_good X K (set_extension t d).
Proof.
  intros Ht (_ & Hs & Hn & Ha)%refs_good_fields. apply refs_good_fields.
  repeat split; try done. by intros ? [= <-].
Qed.

Lemma refs_good_set_restriction (t : ref) (d : complex) :
  good X K t = true → refs_good X K d → refs_good X K (set_restriction t d).
Proof.
  intros Ht (He & _ & Hn & Ha)%refs_good_fields. apply refs_good_fields.
  repeat split; try done. by intros ? [= <-].
Qed.

Lemma refs_good_set_element (nd : node) (d : complex) :
  Forall (fun t => good X K t = true) (node_refs nd) →
  refs_good X K d → refs_good X K (set_element nd d).
Proof.
  intros Hnd (He & Hs & _ & Ha)%refs_good_fields. apply refs_good_fields.
  repeat split; try done. by intros ? [= <-].
Qed.

Lemma refs_good_set_attribute (i : nat) (a : attribute) (d : complex) :
  good X K (attr_type a) = true →
  refs_good X K d → refs_good X K (set_attribute i a d).
Proof.
  intros Hgood (He & Hs & Hn & Ha)%refs_good_fields. apply refs_good_fields.
  repeat split; try done. cbn [set_attribute _attributes].
  rewrite list_fmap_insert. by apply Forall_insert.
Qed.

Lemma resolve_extension_total (h : heap) (r : ref) :
  shaped X K h → pending h ≤ m →
  ∃ h', resolve_extension rs h r = Ok h' ∧ shaped X K h' ∧ pending h' ≤ pending h.
Proof using rs_total.
  intros Hsh Hp. unfold resolve_extension.
  destruct (complex_at h r) as [d|] eqn:Hd; [| by exists h].
  destruct (_extension d) as [t|] eqn:Ht; [| by exists h].
  apply complex_at_Some in Hd as [c Hr].
  assert (Hgood : good X K t = true).
  { destruct (shaped_fields X K h r c d Hsh Hr) as (He & _). by apply He. }
  destruct (rs_total h t Hsh Hp Hgood) as (h' & t' & Hrs & Hsh' & Hp' & Ht').
  exists (modify h' r (set_extension t')). rewrite Hrs. simpl.
  split; [done |]. split.
  - apply shaped_modify; [done |]. intros d'.
    apply refs_good_set_extension. by apply concrete_good.
  - by rewrite pending_modify.
Qed.

Lemma resolve_restriction_total (h : heap) (r : ref) :
  shaped X K h → pending h ≤ m →
  ∃ h', resolve_restriction rs h r = Ok h' ∧ shaped X K h' ∧ pending h' ≤ pending h.
Proof using rs_total.
  intros Hsh Hp. unfold resolve_restriction.
  destruct (complex_at h r) as [d|] eqn:Hd; [| by exists h].
  destruct (_restriction d) as [t|] eqn:Ht; [| by exists h].
  apply complex_at_Some in Hd as [c Hr].
  assert (Hgood : good X K t = true).
  { destruct (shaped_fields X K h r c d Hsh Hr) as (_ & Hs & _). by apply Hs. }
  destruct (rs_total h t Hsh Hp Hgood) as (h' & t' & Hrs & Hsh' & Hp' & Ht').
  exists (modify h' r (set_restriction t')). rewrite Hrs. simpl.
  split; [done |]. split.
  - apply shaped_modify; [done |]. intros d'.
    apply refs_good_set_restriction. by apply concrete_good.
  - by rewrite pending_modify.
Qed.

Lemma resolve_content_total (h : heap) (r : ref) :
  shaped X K h → pending h ≤ m →
  ∃ h', resolve_content rs h r = Ok h' ∧ shaped X K h' ∧ pending h' ≤ pending h.
Proof using rs_total.
  intros Hsh Hp. unfold resolve_content.
  destruct (complex_at h r) as [d|] eqn:Hd; [| by exists h].
  destruct (_element d) as [nd|] eqn:Hnd; [| by exists h].
  destruct (node_truthy nd); [| by exists h].
  apply complex_at_Some in Hd as [c Hr].
  assert (Hgood : Forall (fun t => good X K t = true) (node_refs nd)).
  { destruct (shaped_fields X K h r c d Hsh Hr) as (_ & _ & Hn & _). by apply Hn. }
  destruct (resolve_node_total nd h Hsh Hp Hgood)
    as (h' & nd' & Hres & Hsh' & Hp' & Hgood').
  exists (modify h' r (set_element nd')). rewrite Hres. simpl.
  split; [done |]. split.
  - apply shaped_modify; [done |]. intros d'. by apply refs_good_set_element.
  - by rewrite pending_modify.
Qed.

Lemma resolve_attributes_total (n i : nat) (h : heap) (r : ref) :
  shaped X K h → pending h ≤ m →
  ∃ h', resolve_attributes rs n i h r = Ok h' ∧ shaped X K h' ∧
        pending h' ≤ pending h.
Proof using rs_total.
  revert i h. induction n as [|n IH]; intros i h Hsh Hp; [by exists h |].
  cbn [resolve_attributes].
  destruct (complex_at h r) as [d|] eqn:Hd; [| by exists h].
  destruct (_attributes d !! i) as [a|] eqn:Ha; [| by exists h].
  apply complex_at_Some in Hd as [c Hr].
  assert (Hgood : good X K (attr_type a) = true).
  { destruct (shaped_fields X K h r c d Hsh Hr) as (_ & _ & _ & Hattrs).
    apply (Forall_lookup_1 _ _ i _ Hattrs). by rewrite list_lookup_fmap, Ha. }
  destruct (resolve_attribute_total h a Hsh Hp Hgood)
    as (h' & a' & Hres & Hsh' & Hp' & Hgood').
  destruct (IH (S i) (modify h' r (set_attribute i a')))
    as (h'' & Hrest & Hsh'' & Hp'').
  { apply shaped_modify; [done |]. intros d'. by apply refs_good_set_attribute. }
  { rewrite pending_modify by done. lia. }
  exists h''. rewrite Hres. simpl. rewrite Hrest.
  split; [done |]. split; [done |].
  rewrite pending_modify in Hp'' by done. lia.
Qed.

Lemma ComplexType_resolve_total (h : heap) (r : ref) (c : cls) (d : complex) :
  h !! r = Some (OComplexType c d) → _resolved d = false →
  shaped X K h → pending h ≤ S m →
  ∃ h', ComplexType_resolve rs h r d = Ok (h', r) ∧ shaped X K h' ∧
        pending h' ≤ pending h.
Proof using rs_total.
  intros Hr Hd Hsh Hp. unfold ComplexType_resolve. rewrite Hd.
  pose proof (pending_set_resolved h r c d Hr Hd) as Hflag.
  assert (Hsh0 : shaped X K (modify h r set_resolved)).
  { by apply shaped_modify. }
  destruct (resolve_extension_total _ r Hsh0 ltac:(lia)) as (h1 & H1 & Hsh1 & Hp1).
  destruct (resolve_restriction_total _ r Hsh1 ltac:(lia)) as (h2 & H2 & Hsh2 & Hp2).
  destruct (resolve_content_total _ r Hsh2 ltac:(lia)) as (h3 & H3 & Hsh3 & Hp3).
  destruct (resolve_attributes_total (length (_attributes d)) 0 _ r Hsh3 ltac:(lia))
    as (h4 & H4 & Hsh4 & Hp4).
  exists h4. cbv zeta. rewrite H1. simpl. rewrite H2. simpl. rewrite H3. simpl.
  rewrite H4. simpl. split; [done |]. split; [done | lia].
Qed.
End TotalSteps.

(** ** resolve returns on cyclic graphs *)

Section Total.
Local Open Scope nat_scope.
Variable X : Collaborators.
Variable K : list tag.

(** With [m] complex types pending, a reference to a simple or complex type
    resolves with fuel [2 m + 1], provided any good reference resolves with
    fuel [2 m' + 2] once only [m'] are pending, [m = S m']. *)
Lemma resolve_total_concrete (m : nat) :
  (∀ m' f h t, m = S m' → shaped X K h → pending h ≤ m' → good X K t = true →
     2 * m' + 2 ≤ f →
     ∃ h' t', resolve X f h t = Ok (h', t') ∧ shaped X K h' ∧
              pending h' ≤ pending h ∧ concrete K t' = true) →
  ∀ f h t, shaped X K h → pending h ≤ m → concrete K t = true → 2 * m + 1 ≤ f →
    ∃ h', resolve X f h t = Ok (h', t) ∧ shaped X K h' ∧ pending h' ≤ pending h.
Proof.
  intros Hgood f h t Hsh Hp Hc Hf. destruct f as [|f]; [lia |].
  assert (Hc' : concrete (tags h) t = true) by (by destruct Hsh as [-> _]).
  cbn [resolve].
  destruct (concrete_lookup h t Hc') as [[c Ht] | (c & d & Ht)]; rewrite Ht.
  - by exists h.
  - destruct (_resolved d) eqn:Hd.
    + exists h. unfold ComplexType_resolve. by rewrite Hd.
    + pose proof (pending_set_resolved h t c d Ht Hd) as Hflag.
      destruct m as [|m']; [lia |].
      apply (ComplexType_resolve_total X K m' (resolve X f)) with (c := c);
        try done.
      intros h0 t0 Hsh0 Hp0 Hg0. apply (Hgood m'); try done. lia.
Qed.

Lemma resolve_total_good (m : nat) :
  (∀ f h t, shaped X K h → pending h ≤ m → concrete K t = true → 2 * m + 1 ≤ f →
     ∃ h', resolve X f h t = Ok (h', t) ∧ shaped X K h' ∧ pending h' ≤ pending h) →
  ∀ f h t, shaped X K h → pending h ≤ m → good X K t = true → 2 * m + 2 ≤ f →
    ∃ h' t', resolve X f h t = Ok (h', t') ∧ shaped X K h' ∧
             pending h' ≤ pending h ∧ concrete K t' = true.
Proof.
  intros Hconc f h t Hsh Hp Hg Hf.
  assert (HK : tags h = K) by apply Hsh. rewrite <- HK in Hg.
  destruct (good_cases X h t Hg) as [Hc | (q & t' & Ht & Hq & Hc)];
    rewrite HK in Hc.
  - destruct (Hconc f h t Hsh Hp Hc ltac:(lia)) as (h' & Hres & Hsh' & Hp').
    by exists h', t.
  - destruct f as [|f]; [lia |].
    destruct (Hconc f h t' Hsh Hp Hc ltac:(lia)) as (h' & Hres & Hsh' & Hp').
    exists h', t'. cbn [resolve]. rewrite Ht, Hq. simpl. by rewrite Hres.
Qed.

Lemma resolve_total (m : nat) :
  ∀ f h t, shaped X K h → pending h ≤ m → good X K t = true → 2 * m + 2 ≤ f →
    ∃ h' t', resolve X f h t = Ok (h', t') ∧ shaped X K h' ∧
             pending h' ≤ pending h ∧ concrete K t' = true.
Proof.
  induction m as [|m IH]; apply resolve_total_good, resolve_total_concrete.
  - intros m' f h t [=].
  - intros m' f h t [= <-]. apply IH.
Qed.
End Total.

(** C1: resolve on a ComplexType is idempotent and ends on cycles.  Whenever
    it returns, it returns the type itself, marked resolved, and a second
    call returns the same type and the same store at once, with fuel for no
    call at all; a type already resolved is returned with the store
    untouched.  On a graph of simple types, complex types and placeholders
    for them, cyclic or not, it does return. *)
Theorem resolve_idempotent_on_cycles (X : Collaborators) (h : heap) (r : ref) :
  is_complex h r →
  (∀ f h' r', resolve X f h r = Ok (h', r') →
     r' = r ∧ is_resolved h' r ∧ resolve X 1 h' r = Ok (h', r) ∧
     ∀ f', resolve X (S f') h' r = Ok (h', r)) ∧
  (is_resolved h r → ∀ f, resolve X (S f) h r = Ok (h, r)) ∧
  (graph_ok X h →
     ∃ h', resolve X (2 * pending h + 1) h r = Ok (h', r) ∧ graph_ok X h').
Proof.
  intros Hr. split; [| split].
  - intros f h' r' Hres.
    destruct (resolve_complex_resolved X f h r h' r' Hr Hres) as [-> Hdone].
    split; [done |]. split; [done |].
    split; [by apply resolve_resolved | intros f'; by apply resolve_resolved].
  - intros Hdone f. by apply resolve_resolved.
  - intros Hok.
    assert (Hsh : shaped X (tags h) h) by done.
    assert (Hc : concrete (tags h) r = true).
    { destruct Hr as (c & d & Hr). by rewrite concrete_tags, Hr. }
    destruct (resolve_total_concrete X (tags h) (pending h)
                (fun m' f h0 t _ => resolve_total X (tags h) m' f h0 t)
                (2 * pending h + 1) h r Hsh ltac:(lia) Hc ltac:(lia))
      as (h' & Hres & [_ Hok'] & _).
    by exists h'.
Qed.

Lemma resolve_idempotent_on_cycles_witness :
  ∃ h', resolve Sample.X0 3 Sample.loop 0 = Ok (h', 0) ∧
        resolve Sample.X0 1 h' 0 = Ok (h', 0).
Proof.
  destruct (resolve_idempotent_on_cycles Sample.X0 Sample.loop 0)
    as (Hagain & _ & Hends).
  - eexists _, _. reflexivity.
  - destruct Hends as (h' & Hres & _).
    + unfold graph_ok. repeat (constructor; [reflexivity |]). constructor.
    + exists h'. split; [exact Hres |].
      destruct (Hagain _ _ _ Hres) as (_ & _ & Honce & _). exact Honce.
Defined.

(** * Further properties of the code *)

(** ** SimpleType: render, then parse *)

(** X1: what a SimpleType renders as the text of a node it parses back: if
    the type's decoder inverts its encoder on a value, parsing the rendered
    node returns that value; tag, attributes and children of the node are
    those of the parent. *)
Theorem SimpleType_render_parse (c : cls) (parent : xml) (value : pyvalue)
    (text : string) :
  SimpleType_xmlvalue c value = Ok text →
  SimpleType_pythonvalue c text = Ok value →
  ∃ x, SimpleType_render c parent value = Ok x ∧
       SimpleType_parse_xmlelement c x = Ok value ∧
       xml_text x = Some text ∧
       xml_attrib x = xml_attrib parent ∧ getchildren x = getchildren parent.
Proof.
  intros Henc Hdec. exists (set_text parent text).
  unfold SimpleType_render, SimpleType_parse_xmlelement. rewrite Henc.
  destruct parent as [tag a t cs]. simpl. by rewrite Hdec.
Qed.

Lemma SimpleType_render_parse_witness :
  ∃ x, SimpleType_render Sample.String_ (XmlElement "name" [] None []) (VStr "zeep")
       = Ok x ∧
       SimpleType_parse_xmlelement Sample.String_ x = Ok (VStr "zeep").
Proof.
  destruct (SimpleType_render_parse Sample.String_ (XmlElement "name" [] None [])
              (VStr "zeep") "zeep" eq_refl eq_refl) as (x & Hr & Hp & _).
  exists x. split; [exact Hr | exact Hp].
Defined.

(** X2: a node without text parses to None for every SimpleType class, the
    decoder is not called: also for a class that defines none, whose decoder
    raises NotImplementedError on any text. *)
Theorem SimpleType_parse_no_text (c : cls) (tag : string)
    (attrib : list (string * string)) (children : list xml) :
  SimpleType_parse_xmlelement c (XmlElement tag attrib None children) = Ok VNone ∧
  (find_pythonvalue c = None →
   ∀ text, ∃ msg,
     SimpleType_parse_xmlelement c (XmlElement tag attrib (Some text) children)
     = Raise (NotImplementedError msg)).
Proof.
  split; [done |]. intros Hnone text.
  unfold SimpleType_parse_xmlelement, SimpleType_pythonvalue. simpl.
  rewrite Hnone. eauto.
Qed.

Lemma SimpleType_parse_no_text_witness :
  ∃ msg, SimpleType_parse_xmlelement Sample.Integer
           (XmlElement "n" [] (Some "1") []) = Raise (NotImplementedError msg).
Proof.
  destruct (SimpleType_parse_no_text Sample.Integer "n" [] []) as [_ Hstub].
  apply (Hstub eq_refl "1").
Defined.

(** ** ListType.xmlvalue at the edges *)

Lemma mapM_app_Raise {A B : Type} (f : A → res B) (pre post : list A) (x : A)
    (ys : list B) (e : exn) :
  Forall2 (fun a b => f a = Ok b) pre ys → f x = Raise e →
  mapM f (pre ++ x :: post) = Raise e.
Proof.
  revert ys. induction pre as [|a pre IH]; intros ys Hpre Hx; simpl.
  - by rewrite Hx.
  - destruct ys as [|b ys]; [by inversion Hpre |].
    apply Forall2_cons in Hpre as [Ha Hpre]. rewrite Ha. simpl.
    by rewrite (IH ys).
Qed.

(** X3: ListType.xmlvalue on an empty sequence is the empty text and on one
    item the item's encoding, without separator; the first item that the
    item type fails to encode makes the call, and render with it, raise that
    exception; a value that cannot be iterated raises TypeError. *)
Theorem ListType_xmlvalue_edges (fuel : nat) (h : heap) (r item_type : ref) :
  h !! r = Some (OListType item_type) →
  xmlvalue (S fuel) h r (VList []) = Ok "" ∧
  (∀ v s, xmlvalue fuel h item_type v = Ok s →
     xmlvalue (S fuel) h r (VList [v]) = Ok s) ∧
  (∀ pre v post parts e parent,
     Forall2 (fun v s => xmlvalue fuel h item_type v = Ok s) pre parts →
     xmlvalue fuel h item_type v = Raise e →
     xmlvalue (S fuel) h r (VList (pre ++ v :: post)) = Raise e ∧
     ListType_render (S fuel) h r parent (VList (pre ++ v :: post)) = Raise e) ∧
  (∃ msg, xmlvalue (S fuel) h r VNone = Raise (TypeError msg)) ∧
  (∀ z, ∃ msg, xmlvalue (S fuel) h r (VInt z) = Raise (TypeError msg)).
Proof.
  intros Hr. cbn [xmlvalue]. rewrite Hr. split; [done |]. split; [| split].
  - intros v s Hv. simpl. rewrite Hv. simpl. by destruct s.
  - intros pre v post parts e parent Hpre Hv.
    assert (Hx : xmlvalue (S fuel) h r (VList (pre ++ v :: post)) = Raise e).
    { cbn [xmlvalue]. rewrite Hr. simpl.
      by rewrite (mapM_app_Raise _ _ _ _ _ _ Hpre Hv). }
    split.
    + cbn [xmlvalue] in Hx. by rewrite Hr in Hx.
    + unfold ListType_render. by rewrite Hr, Hx.
  - simpl. eauto.
Qed.

Lemma ListType_xmlvalue_edges_witness :
  xmlvalue 2 [OListType 1; OSimpleType Sample.Integer] 0 (VList []) = Ok "" ∧
  xmlvalue 2 [OListType 1; OSimpleType Sample.Integer] 0
    (VList ([VInt 1] ++ VStr "x" :: [VInt 3]))
  = Raise (TypeError "an integer is required").
Proof.
  destruct (ListType_xmlvalue_edges 1 [OListType 1; OSimpleType Sample.Integer]
              0 1 eq_refl) as (Hempty & _ & Hfail & _).
  split; [exact Hempty |].
  apply (Hfail [VInt 1] (VStr "x") [VInt 3] ["1"] _ (XmlElement "n" [] None [])).
  - repeat constructor.
  - reflexivity.
Defined.

(** ** Types without a resolved flag *)

(** X4: only ComplexType guards its resolution.  A ListType whose item type
    is a placeholder for a name that the registry maps back to the list, and
    a placeholder whose name maps to a placeholder of the same name, never
    resolve: the call runs out of any amount of fuel. *)
Theorem unguarded_cycles_diverge (X : Collaborators) (h : heap) (r t : ref)
    (qname : string) :
  h !! t = Some (OUnresolvedType qname) →
  (h !! r = Some (OListType t) → get_type X qname = Ok r →
     ∀ f, resolve X f h r = OutOfFuel) ∧
  (get_type X qname = Ok t → ∀ f, resolve X f h t = OutOfFuel).
Proof.
  intros Ht. split.
  - intros Hr Hq.
    assert (Hboth : ∀ f, resolve X f h r = OutOfFuel ∧ resolve X f h t = OutOfFuel).
    { induction f as [|f [IHr IHt]]; [done |]. cbn [resolve].
      rewrite Hr, Ht, Hq. simpl. by rewrite IHr, IHt. }
    intros f. apply Hboth.
  - intros Hq f. induction f as [|f IH]; [done |]. cbn [resolve].
    rewrite Ht, Hq. simpl. exact IH.
Qed.

Lemma unguarded_cycles_diverge_witness :
  Sample.X0.(get_type) "tns:Node" = Ok 0 ∧
  ∀ f, resolve Sample.X0 f More.list_loop 0 = OutOfFuel.
Proof.
  split; [reflexivity |].
  destruct (unguarded_cycles_diverge Sample.X0 More.list_loop 0 1 "tns:Node" eq_refl)
    as [Hlist _].
  apply Hlist; reflexivity.
Defined.

(** ** UnresolvedCustomType.resolve again *)

(** X5: UnresolvedCustomType.resolve keeps no record of the type it made.
    With a SimpleType instance as base, each call adds one new object at the
    end of the store and returns it; the placeholder and all other objects
    stay, so a second call returns another object, at the next reference,
    whose class is made again from the same name, base and body. *)
Theorem UnresolvedCustomType_resolve_not_memoised (X : Collaborators) (f : nat)
    (h : heap) (r base : ref) (name : string) (c : cls) :
  h !! r = Some (OUnresolvedCustomType name base) →
  h !! base = Some (OSimpleType c) →
  root c = KSimpleType →
  let new := OSimpleType (Subclass name c empty_body) in
  resolve X (S f) h r = Ok (h ++ [new], length h) ∧
  resolve X (S f) (h ++ [new]) r = Ok (h ++ [new; new], S (length h)) ∧
  (∀ q o, h !! q = Some o → (h ++ [new; new]) !! q = Some o) ∧
  (h ++ [new; new]) !! length h = Some new ∧
  (h ++ [new; new]) !! S (length h) = Some new.
Proof.
  intros Hr Hbase Hroot new.
  assert (Hcall : ∀ h0, h0 !! r = Some (OUnresolvedCustomType name base) →
                        h0 !! base = Some (OSimpleType c) →
                        resolve X (S f) h0 r = Ok (h0 ++ [new], length h0)).
  { intros h0 Hr0 Hb0. cbn [resolve]. rewrite Hr0, Hb0. simpl. rewrite Hb0.
    unfold instantiate. cbn [root class_of]. by rewrite Hroot. }
  split; [by apply Hcall |]. split.
  - rewrite Hcall by (by apply lookup_app_l_Some).
    rewrite <- app_assoc, length_app. simpl. do 2 f_equal. lia.
  - split; [intros q o Hq; by apply lookup_app_l_Some |]. split.
    + by rewrite lookup_app_r, Nat.sub_diag by lia.
    + rewrite lookup_app_r by lia. by replace (S (length h) - length h) with 1 by lia.
Qed.

Lemma UnresolvedCustomType_resolve_not_memoised_witness :
  resolve Sample.X0 1 [OUnresolvedCustomType "Token" 1; OSimpleType Sample.String_] 0
  = Ok ([OUnresolvedCustomType "Token" 1; OSimpleType Sample.String_]
        ++ [OSimpleType (Subclass "Token" Sample.String_ empty_body)], 2).
Proof.
  destruct (UnresolvedCustomType_resolve_not_memoised Sample.X0 0
              [OUnresolvedCustomType "Token" 1; OSimpleType Sample.String_]
              0 1 "Token" Sample.String_ eq_refl eq_refl eq_refl) as [Hfirst _].
  exact Hfirst.
Defined.

(** X6: the base of an UnresolvedCustomType is resolved first only when it
    is an UnresolvedType.  A base that is itself an UnresolvedCustomType, or
    a ListType or a UnionType, is subclassed as it stands, and the call of
    the new class without argument raises TypeError: the store is not
    returned. *)
Theorem UnresolvedCustomType_resolve_bad_base (X : Collaborators) (f : nat)
    (h : heap) (r base : ref) (name : string) (o : obj) :
  h !! r = Some (OUnresolvedCustomType name base) →
  h !! base = Some o →
  (∃ n b, o = OUnresolvedCustomType n b) ∨ (∃ t, o = OListType t) ∨
  (∃ l, o = OUnionType l) →
  ∃ msg, resolve X (S f) h r = Raise (TypeError msg).
Proof.
  intros Hr Hbase Ho. cbn [resolve]. rewrite Hr, Hbase.
  destruct Ho as [(n & b & ->) | [(t & ->) | (l & ->)]];
    simpl; rewrite Hbase; simpl; eauto.
Qed.

Lemma UnresolvedCustomType_resolve_bad_base_witness :
  ∃ msg, resolve Sample.X0 5 More.alias_of_alias 0 = Raise (TypeError msg).
Proof.
  apply (UnresolvedCustomType_resolve_bad_base Sample.X0 4 More.alias_of_alias
           0 1 "Outer" (OUnresolvedCustomType "Inner" 2) eq_refl eq_refl).
  left. eauto.
Defined.

(** ** The store under resolve *)

Lemma same_object_refl (o : obj) : same_object o o.
Proof. split; [done |]. destruct o; eauto. Qed.

Lemma same_object_trans (o1 o2 o3 : obj) :
  same_object o1 o2 → same_object o2 o3 → same_object o1 o3.
Proof.
  intros [Hc12 H12] [Hc23 H23]. split; [congruence |].
  destruct o1; simpl in *;
    first [ by destruct H12 as (? & ? & ->) | by destruct H12 as (? & ->)
          | by subst o2 ].
Qed.

Lemma store_extends_refl (h : heap) : store_extends h h.
Proof. intros q o Hq. exists o. split; [done | apply same_object_refl]. Qed.

Lemma store_extends_trans (h1 h2 h3 : heap) :
  store_extends h1 h2 → store_extends h2 h3 → store_extends h1 h3.
Proof.
  intros H12 H23 q o Hq. destruct (H12 q o Hq) as (o2 & Hq2 & Hs2).
  destruct (H23 q o2 Hq2) as (o3 & Hq3 & Hs3). exists o3.
  split; [done | by eapply same_object_trans].
Qed.

Lemma store_extends_insert (h : heap) (r : ref) (o o' : obj) :
  h !! r = Some o → same_object o o' → store_extends h (<[r := o']> h).
Proof.
  intros Hr Hsame q oq Hq. destruct (decide (q = r)) as [-> | Hne].
  - exists o'. rewrite list_lookup_insert_eq by (by eapply lookup_lt_Some).
    split; [done | congruence].
  - exists oq. rewrite list_lookup_insert_ne by done.
    split; [done | apply same_object_refl].
Qed.

Lemma store_extends_modify (h : heap) (r : ref) (g : complex → complex) :
  store_extends h (modify h r g).
Proof.
  unfold modify. destruct (h !! r) as [[]|] eqn:Hr; try apply store_extends_refl.
  eapply store_extends_insert; [done |]. split; [done | eauto].
Qed.

Lemma store_extends_app (h new : heap) : store_extends h (h ++ new).
Proof.
  intros q o Hq. exists o. split; [by apply lookup_app_l_Some | apply same_object_refl].
Qed.

Lemma store_extends_valid (h h' : heap) (t : ref) :
  store_extends h h' → is_Some (h !! t) → is_Some (h' !! t).
Proof. intros Hext [o Ho]. destruct (Hext t o Ho) as (o' & Ho' & _). eauto. Qed.

Lemma store_extends_length (h h' : heap) :
  store_extends h h' → (length h ≤ length h')%nat.
Proof.
  intros Hext. destruct (decide (length h ≤ length h')%nat) as [|Hlt]; [done |].
  assert (Hin : is_Some (h !! length h')) by (apply lookup_lt_is_Some; lia).
  apply (store_extends_valid _ _ _ Hext), lookup_lt_is_Some in Hin. lia.
Qed.

Section StoreSteps.
Variable rs : heap → ref → res (heap * ref).
Hypothesis rs_extends : ∀ h t h' t',
  rs h t = Ok (h', t') → store_extends h h' ∧ is_Some (h' !! t').

Lemma resolve_node_extends (nd nd' : node) (h h' : heap) :
  resolve_node rs h nd = Ok (h', nd') → store_extends h h'.
Proof using rs_extends.
  apply (resolve_node_rel store_extends store_extends_refl store_extends_trans).
  intros h1 t h2 t' Hrs. by eapply rs_extends.
Qed.

Lemma resolve_items_extends (l l' : list ref) (h h' : heap) :
  resolve_items rs h l = Ok (h', l') →
  store_extends h h' ∧ length l' = length l ∧
  Forall (fun t => is_Some (h' !! t)) l'.
Proof using rs_extends.
  revert h l'. induction l as [|t l IH]; intros h l'; cbn [resolve_items].
  - intros [= <- <-]. split; [apply store_extends_refl | done].
  - intros ([h1 t'] & Ht & ([h2 l''] & Hl & [= <- <-])%bind_Ok)%bind_Ok.
    destruct (rs_extends _ _ _ _ Ht) as [H1 Hvalid].
    destruct (IH _ _ Hl) as (H2 & Hlen & Hall).
    split; [by eapply store_extends_trans |]. split; [simpl; by rewrite Hlen |].
    constructor; [by eapply store_extends_valid | done].
Qed.

Lemma resolve_attributes_extends (n i : nat) (h h' : heap) (r : ref) :
  resolve_attributes rs n i h r = Ok h' → store_extends h h'.
Proof using rs_extends.
  revert i h. induction n as [|n IH]; intros i h; cbn [resolve_attributes].
  - intros [= <-]. apply store_extends_refl.
  - destruct (complex_at h r) as [d|]; [| intros [= <-]; apply store_extends_refl].
    destruct (_attributes d !! i) as [a|];
      [| intros [= <-]; apply store_extends_refl].
    unfold resolve_attribute.
    intros ([h1 a'] & ([h0 t] & Hrs & [= <- <-])%bind_Ok & Hrest)%bind_Ok.
    eapply store_extends_trans; [by eapply rs_extends |].
    eapply store_extends_trans; [apply store_extends_modify | by eapply IH].
Qed.

Lemma resolve_extension_extends (h h' : heap) (r : ref) :
  resolve_extension rs h r = Ok h' → store_extends h h'.
Proof using rs_extends.
  unfold resolve_extension.
  destruct (complex_at _ r) as [d0|]; [| intros [= <-]; apply store_extends_refl].
  destruct (_extension d0); [| intros [= <-]; apply store_extends_refl].
  intros ([h0 t] & Hrs & [= <-])%bind_Ok.
  eapply store_extends_trans; [by eapply rs_extends | apply store_extends_modify].
Qed.

Lemma resolve_restriction_extends (h h' : heap) (r : ref) :
  resolve_restriction rs h r = Ok h' → store_extends h h'.
Proof using rs_extends.
  unfold resolve_restriction.
  destruct (complex_at _ r) as [d0|]; [| intros [= <-]; apply store_extends_refl].
  destruct (_restriction d0); [| intros [= <-]; apply store_extends_refl].
  intros ([h0 t] & Hrs & [= <-])%bind_Ok.
  eapply store_extends_trans; [by eapply rs_extends | apply store_extends_modify].
Qed.

Lemma resolve_content_extends (h h' : heap) (r : ref) :
  resolve_content rs h r = Ok h' → store_extends h h'.
Proof using rs_extends.
  unfold resolve_content.
  destruct (complex_at _ r) as [d0|]; [| intros [= <-]; apply store_extends_refl].
  destruct (_element d0) as [nd|]; [| intros [= <-]; apply store_extends_refl].
  destruct (node_truthy nd); [| intros [= <-]; apply store_extends_refl].
  intros ([h0 nd'] & Hnd & [= <-])%bind_Ok.
  eapply store_extends_trans;
    [by eapply resolve_node_extends | apply store_extends_modify].
Qed.

Lemma ComplexType_resolve_extends (h h' : heap) (r r' : ref) (d : complex) :
  ComplexType_resolve rs h r d = Ok (h', r') → store_extends h h' ∧ r' = r.
Proof using rs_extends.
  unfold ComplexType_resolve. destruct (_resolved d).
  { intros [= <- <-]. split; [apply store_extends_refl | done]. }
  intros (h1 & H1 & (h2 & H2 & (h3 & H3 & (h4 & H4 & [= <- <-])%bind_Ok)
            %bind_Ok)%bind_Ok)%bind_Ok.
  split; [| done].
  apply (store_extends_trans _ (modify h r set_resolved));
    [apply store_extends_modify |].
  apply (store_extends_trans _ h1); [by eapply resolve_extension_extends |].
  apply (store_extends_trans _ h2); [by eapply resolve_restriction_extends |].
  apply (store_extends_trans _ h3); [by eapply resolve_content_extends |].
  by eapply resolve_attributes_extends.
Qed.
End StoreSteps.

(** X7: resolve never removes an object from the store and never changes the
    class of one; placeholders, simple types and bare types are left exactly
    as they are; the reference it returns denotes an object of the new
    store. *)
Theorem resolve_extends_store (X : Collaborators) (f : nat) (h : heap) (t : ref)
    (h' : heap) (t' : ref) :
  resolve X f h t = Ok (h', t') →
  store_extends h h' ∧ is_Some (h' !! t') ∧ (length h ≤ length h')%nat.
Proof.
  intros Hres.
  assert (Hmain : store_extends h h' ∧ is_Some (h' !! t')).
  { revert h t h' t' Hres. induction f as [|f IH]; intros h t h' t'; [done |].
    cbn [resolve]. destruct (h !! t) as [o|] eqn:Ht; [| done].
    destruct o as [c | qname | name base_qname | c | c d | item_type | item_types];
      try done.
    - intros (retval & _ & Hres)%bind_Ok. by eapply IH.
    - intros ([h1 base] & Hbase & Hnew)%bind_Ok.
      assert (Hh1 : store_extends h h1).
      { destruct (h !! base_qname) as [[]|];
          first [by eapply IH | injection Hbase as <- <-; apply store_extends_refl]. }
      destruct (h1 !! base) as [o|]; [| done].
      apply bind_Ok in Hnew as (o' & _ & [= <- <-]). split.
      + eapply store_extends_trans; [done | apply store_extends_app].
      + rewrite lookup_app_r, Nat.sub_diag by lia. eauto.
    - intros [= <- <-]. split; [apply store_extends_refl | eauto].
    - intros Hres. destruct (ComplexType_resolve_extends _ IH _ _ _ _ _ Hres)
        as [Hext ->].
      split; [done |]. eapply store_extends_valid; eauto.
    - intros ([h1 t1] & Hres & [= <- <-])%bind_Ok.
      destruct (IH _ _ _ _ Hres) as [Hext _].
      destruct (Hext t _ Ht) as (o1 & Ht1 & Hc1 & (t0 & ->)).
      assert (Hins : store_extends h1 (<[t := OListType t1]> h1)).
      { eapply store_extends_insert; [done |]. split; [done | eauto]. }
      split; [by eapply store_extends_trans |].
      eapply store_extends_valid; [exact Hins | eauto].
    - intros ([h1 l] & Hres & [= <- <-])%bind_Ok.
      destruct (resolve_items_extends _ IH _ _ _ _ Hres) as (Hext & _ & _).
      destruct (Hext t _ Ht) as (o1 & Ht1 & Hc1 & (l0 & ->)).
      assert (Hins : store_extends h1 (<[t := OUnionType l]> h1)).
      { eapply store_extends_insert; [done |]. split; [done | eauto]. }
      split; [by eapply store_extends_trans |].
      eapply store_extends_valid; [exact Hins | eauto]. }
  destruct Hmain as [Hext Hvalid].
  split; [done |]. split; [done | by apply store_extends_length].
Qed.

Lemma resolve_extends_store_witness :
  (5 ≤ length Sample.resolved_graph)%nat ∧
  ∃ o', Sample.resolved_graph !! 3 = Some o' ∧
        same_object (OUnresolvedType "tns:Node") o'.
Proof.
  destruct (resolve_extends_store Sample.X0 8 Sample.graph 0
              Sample.resolved_graph 0 eq_refl) as (Hext & _ & Hlen).
  split; [exact Hlen |]. exact (Hext 3 (OUnresolvedType "tns:Node") eq_refl).
Defined.

(** ** ListType.resolve and UnionType.resolve *)

(** X8: when ListType.resolve returns, it returns the list type itself, and
    the store holds there a ListType whose item type is the reference that
    resolving the former item type returned, an object of the store; the
    other objects are as that resolution left them. *)
Theorem ListType_resolve_replaces_item (X : Collaborators) (f : nat) (h : heap)
    (r item_type : ref) (h' : heap) (r' : ref) :
  h !! r = Some (OListType item_type) →
  resolve X (S f) h r = Ok (h', r') →
  r' = r ∧
  ∃ h1 t, resolve X f h item_type = Ok (h1, t) ∧
          h' !! r = Some (OListType t) ∧ is_Some (h' !! t) ∧
          ∀ q, q ≠ r → h' !! q = h1 !! q.
Proof.
  intros Hr. cbn [resolve]. rewrite Hr.
  intros ([h1 t] & Hres & [= <- <-])%bind_Ok. split; [done |].
  exists h1, t. split; [done |].
  destruct (resolve_extends_store X f h item_type h1 t Hres) as (Hext & Hvalid & _).
  destruct (Hext r _ Hr) as (o1 & Hr1 & _).
  assert (Hlt : r < length h1) by (by eapply lookup_lt_Some).
  split; [by apply list_lookup_insert_eq |]. split.
  - destruct (decide (t = r)) as [-> | Hne].
    + rewrite list_lookup_insert_eq by done. eauto.
    + by rewrite list_lookup_insert_ne.
  - intros q Hq. by rewrite list_lookup_insert_ne.
Qed.

Lemma ListType_resolve_replaces_item_witness :
  resolve Sample.X0 3 More.list_of_names 0
  = Ok ([OListType 1; OSimpleType Sample.String_; OUnresolvedType "xsd:string"], 0) ∧
  [OListType 1; OSimpleType Sample.String_; OUnresolvedType "xsd:string"] !! 0
  = Some (OListType 1).
Proof.
  split; [reflexivity |].
  destruct (ListType_resolve_replaces_item Sample.X0 2 More.list_of_names 0 2
              [OListType 1; OSimpleType Sample.String_; OUnresolvedType "xsd:string"]
              0 eq_refl eq_refl) as (_ & h1 & t & Hres & Hr & _).
  injection Hres as <- <-. exact Hr.
Defined.

(** X9: when UnionType.resolve returns, it returns the union itself, and the
    store holds there a UnionType with as many alternatives as before, each
    the reference of an object of the store. *)
Theorem UnionType_resolve_replaces_items (X : Collaborators) (f : nat) (h : heap)
    (r : ref) (item_types : list ref) (h' : heap) (r' : ref) :
  h !! r = Some (OUnionType item_types) →
  resolve X (S f) h r = Ok (h', r') →
  r' = r ∧
  ∃ l, h' !! r = Some (OUnionType l) ∧ length l = length item_types ∧
       Forall (fun t => is_Some (h' !! t)) l.
Proof.
  intros Hr. cbn [resolve]. rewrite Hr.
  intros ([h1 l] & Hres & [= <- <-])%bind_Ok. split; [done |]. exists l.
  destruct (resolve_items_extends _
              (fun h0 t0 h0' t0' H0 =>
                 let '(conj He (conj Hv _)) := resolve_extends_store X f h0 t0 h0' t0' H0
                 in conj He Hv) _ _ _ _ Hres) as (Hext & Hlen & Hall).
  destruct (Hext r _ Hr) as (o1 & Hr1 & _).
  assert (Hlt : r < length h1) by (by eapply lookup_lt_Some).
  split; [by apply list_lookup_insert_eq |]. split; [done |].
  eapply Forall_impl; [exact Hall |]. intros t Ht. simpl in Ht.
  destruct (decide (t = r)) as [-> | Hne].
  - rewrite list_lookup_insert_eq by done. eauto.
  - by rewrite list_lookup_insert_ne.
Qed.

Lemma UnionType_resolve_replaces_items_witness :
  resolve Sample.X0 3 More.union_of_names 2
  = Ok ([OSimpleType Sample.Integer; OSimpleType Sample.String_;
         OUnionType [1; 0]; OUnresolvedType "xsd:string"], 2) ∧
  ∃ l, [OSimpleType Sample.Integer; OSimpleType Sample.String_;
        OUnionType [1; 0]; OUnresolvedType "xsd:string"] !! 2
       = Some (OUnionType l) ∧ length l = 2.
Proof.
  split; [reflexivity |].
  destruct (UnionType_resolve_replaces_items Sample.X0 2 More.union_of_names
              2 [3; 0]
              [OSimpleType Sample.Integer; OSimpleType Sample.String_;
               OUnionType [1; 0]; OUnresolvedType "xsd:string"]
              2 eq_refl eq_refl) as (_ & l & Hr & Hlen & _).
  exists l. split; [exact Hr | exact Hlen].
Defined.

(** ** Which declaration and which field a parse keeps *)

Section DictLast.
Context {V : Type}.
Implicit Types (d l : list (string * V)) (k : string) (v : V).

Lemma dict_get_set d k v k' :
  dict_get (dict_set d k v) k' = if decide (k = k') then Some v else dict_get d k'.
Proof.
  induction d as [|[k0 v0] d IH]; cbn [dict_set dict_get].
  - done.
  - destruct (decide (k0 = k)) as [-> | Hne]; cbn [dict_get].
    + by destruct (decide (k = k')).
    + rewrite IH. destruct (decide (k0 = k')) as [-> | Hne'].
      * by rewrite decide_False by congruence.
      * done.
Qed.

Lemma dict_get_update d l k :
  dict_get (dict_update d l) k
  = match last_binding l k with
    | Some v => Some v
    | None => dict_get d k
    end.
Proof.
  unfold dict_update. revert d. induction l as [|[k0 v0] l IH]; intros d; [done |].
  cbn [fold_left last_binding fst snd]. rewrite IH.
  destruct (last_binding l k); [done |]. rewrite dict_get_set.
  by destruct (decide (k0 = k)).
Qed.
End DictLast.

Lemma attr_map_update (attrs : list attribute) :
  attr_map attrs = dict_update [] ((fun a => (attr_name a, a)) <$> attrs).
Proof.
  unfold attr_map, dict_update. generalize (@nil (string * attribute)).
  induction attrs as [|a attrs IH]; intros m; [done |]. apply IH.
Qed.

Lemma last_binding_app_cons {V : Type} (l l' : list (string * V)) (k : string) (v : V) :
  Forall (fun kv => kv.1 ≠ k) l' → last_binding (l ++ (k, v) :: l') k = Some v.
Proof.
  intros Hl'. induction l as [|[k0 v0] l IH]; cbn [app last_binding].
  - assert (Hnone : last_binding l' k = None).
    { induction l' as [|[k1 v1] l' IH']; [done |].
      apply Forall_cons in Hl' as [Hk1 Hl']. cbn [last_binding].
      rewrite (IH' Hl'). by rewrite decide_False. }
    rewrite Hnone. by rewrite decide_True.
  - by rewrite IH.
Qed.

(** X10: when several effective attributes have the same name, a parse
    decodes the XML attribute of that name with the last of them: the type's
    own declaration overrides the one of its extension. *)
Theorem parse_uses_last_declaration (X : Collaborators) (base own : list attribute)
    (a : attribute) (kw : list (string * pyvalue)) (value : string) :
  Forall (fun b => attr_name b ≠ attr_name a) own →
  dict_get (attr_map (base ++ a :: own)) (attr_name a) = Some a ∧
  parse_attribute X (attr_map (base ++ a :: own)) kw (attr_name a, value)
  = (v ← attr_parse X a value; Ok (dict_set kw (attr_name a) v)).
Proof.
  intros Hown.
  assert (Hget : dict_get (attr_map (base ++ a :: own)) (attr_name a) = Some a).
  { rewrite attr_map_update, dict_get_update, fmap_app, fmap_cons.
    rewrite last_binding_app_cons; [done |]. by apply Forall_fmap. }
  split; [done |]. unfold parse_attribute. cbn [fst snd]. by rewrite Hget.
Qed.

Lemma parse_uses_last_declaration_witness :
  parse_attribute Sample.X0
    (attr_map ([Attribute "id" 1] ++ Attribute "id" 4 :: [Attribute "lang" 1]))
    [] ("id", "7")
  = (v ← attr_parse Sample.X0 (Attribute "id" 4) "7"; Ok (dict_set [] "id" v)).
Proof.
  destruct (parse_uses_last_declaration Sample.X0 [Attribute "id" 1]
              [Attribute "lang" 1] (Attribute "id" 4) [] "7") as [_ Hparse].
  - repeat constructor. discriminate.
  - exact Hparse.
Defined.

(** X11: in the compound value a parse builds, a field returned by a content
    node replaces an attribute field of the same name, and of two content
    nodes the later one wins; a field comes from nowhere else. *)
Theorem parse_element_overrides_attribute (X : Collaborators) (fuel : nat)
    (h : heap) (r : ref) (tag : string) (attribs : list (string * string))
    (text : option string) (children : list xml) (attrs : list attribute)
    (nested : list (string * node)) (fields : list (string * pyvalue))
    (results : list (list (string * pyvalue))) :
  attribs ≠ [] ∨ children ≠ [] →
  attributes fuel h r = Ok attrs →
  elements_nested fuel h r = Ok nested →
  Forall2 (fun kv f => decode_attribute X (attr_map attrs) kv = Ok f)
    (filter (fun kv => declared (attr_map attrs) kv = true) attribs) fields →
  Forall2 (fun ne result => parse_xmlelements X ne.2 children ne.1 = Ok result)
    nested results →
  ∃ kw,
    parse_xmlelement X fuel h r (XmlElement tag attribs text children)
    = CompoundValue_init X r kw ∧
    ∀ k, dict_get kw k
         = match last_binding (concat results) k with
           | Some v => Some v
           | None => last_binding fields k
           end.
Proof.
  intros Hne Ha Hn Hf Hr.
  exists (dict_update (dict_update [] fields) (concat results)). split.
  - rewrite parse_xmlelement_nonempty by done.
    rewrite (bind_Ok_l _ _ _ Ha).
    rewrite (bind_Ok_l _ _ _ (parse_attributes_fields X _ _ [] _ Hf)).
    rewrite (bind_Ok_l _ _ _ Hn).
    by rewrite (bind_Ok_l _ _ _ (parse_contents_fields X _ _ _ _ Hr)).
  - intros k. rewrite !dict_get_update.
    destruct (last_binding (concat results) k); [done |].
    by destruct (last_binding fields k).
Qed.

Lemma parse_element_overrides_attribute_witness :
  ∃ kw, parse_xmlelement Sample.X0 1 More.clash 0 (XmlElement "n" [("id", "7")] None [])
        = CompoundValue_init Sample.X0 0 kw ∧
        dict_get kw "id" = Some VNone.
Proof.
  destruct (parse_element_overrides_attribute Sample.X0 1 More.clash 0 "n"
              [("id", "7")] None [] [Attribute "id" 1]
              [("_value_1", Single (Element "id" 1))]
              [("id", VStr "7")] [[("id", VNone)]]) as (kw & Hparse & Hget).
  - left. discriminate.
  - reflexivity.
  - reflexivity.
  - vm_compute. repeat constructor.
  - repeat constructor.
  - exists kw. split; [exact Hparse |]. rewrite Hget. reflexivity.
Defined.

(** ** The flattened elements *)

(** X12: the flattened elements of a type that extends a complex type are
    the flattened elements of that base, followed by those of the type's own
    content node; a type that extends a simple type starts with one element
    named [_value_1], of that simple type. *)
Theorem elements_base_first (h : heap) (r t : ref) (c : cls) (d : complex) (n : nat) :
  h !! r = Some (OComplexType c d) →
  _extension d = Some t →
  (extension_chain h t n →
     ∃ base, elements (S n) h t = Ok base ∧
             elements (S (S n)) h r
             = Ok (base ++ concat (node_elements <$> (own_nodes 1 d).*2))) ∧
  (∀ c', h !! t = Some (OSimpleType c') →
     elements (S n) h r
     = Ok (("_value_1", Element "_value_1" t)
           :: concat (node_elements <$> (own_nodes 1 d).*2))).
Proof.
  intros Hr Hext. split.
  - intros Hchain.
    destruct (views_of_chain _ _ _ Hchain) as (attrs & nested & _ & Hn).
    destruct (extension_chain_complex _ _ _ Hchain) as (c' & d' & Ht).
    exists (concat (node_elements <$> nested.*2)). unfold elements.
    rewrite Hn. split; [done |].
    rewrite elements_nested_S, Hr, Hext. cbv zeta. rewrite Ht, Hn. simpl.
    by rewrite !fmap_app, concat_app.
  - intros c' Ht. unfold elements. rewrite elements_nested_S, Hr, Hext.
    cbv zeta. rewrite Ht.
    replace (get_name 1) with "_value_1" by (by vm_compute).
    cbn [mbind res_bind]. rewrite fmap_app, fmap_app, concat_app. done.
Qed.

Lemma elements_base_first_witness :
  elements 2 Sample.graph 0
  = Ok ([("label", Element "label" 4)] ++ [("next", Element "next" 3)]).
Proof.
  destruct (elements_base_first Sample.graph 0 2 _ _ 0 eq_refl eq_refl)
    as [Hcomplex _].
  destruct Hcomplex as (base & Hbase & Hall).
  - eapply chain_base; reflexivity.
  - vm_compute in Hbase. injection Hbase as <-. exact Hall.
Defined.

(** ** ComplexType.render *)

Section RenderFacts.
Variable Y : Renderers.

Lemma xml_set_attrib (x : xml) (key value k : string) :
  dict_get (xml_attrib (xml_set x key value)) k
  = if decide (key = k) then Some value else dict_get (xml_attrib x) k.
Proof. destruct x as [tag a t cs]. apply dict_get_set. Qed.

(** X13: rendering with an explicit subtype is rendering without one, then
    writing the attribute xsi:type.  The node returned carries the name of
    the subtype under xsi:type, whatever the fields wrote there; its text,
    its children and its other attributes are those of the rendering
    without subtype. *)
Theorem ComplexType_render_subtype (fuel : nat) (h : heap) (r : ref)
    (parent : xml) (value : pyvalue) (name : string) (x : xml) :
  ComplexType_render Y fuel h r parent value (Some name) = Ok x →
  ∃ x0, ComplexType_render Y fuel h r parent value None = Ok x0 ∧
        x = xml_set x0 xsi_type name ∧
        dict_get (xml_attrib x) xsi_type = Some name ∧
        (∀ k, k ≠ xsi_type → dict_get (xml_attrib x) k = dict_get (xml_attrib x0) k) ∧
        xml_text x = xml_text x0 ∧ getchildren x = getchildren x0.
Proof.
  destruct fuel as [|f]; [done |]. cbn [ComplexType_render].
  unfold ComplexType_render_body.
  intros (attrs & Ha & (p1 & H1 & (nested & Hn & (p2 & H2 & [= <-])%bind_Ok)
            %bind_Ok)%bind_Ok)%bind_Ok.
  exists p2. rewrite (bind_Ok_l _ _ _ Ha), (bind_Ok_l _ _ _ H1).
  rewrite (bind_Ok_l _ _ _ Hn), (bind_Ok_l _ _ _ H2).
  split; [done |]. split; [done |]. split; [| split].
  - rewrite xml_set_attrib. by rewrite decide_True.
  - intros k Hk. rewrite xml_set_attrib. by rewrite decide_False.
  - by destruct p2.
Qed.

(** X14: a complex type with simple content, that is one that extends a
    SimpleType and has no content node of its own, renders after its own
    attributes the field [_value_1] of the value, encoded by that simple
    type, as the text of the node; a value without that field makes render
    raise AttributeError. *)
Theorem render_simple_content (f : nat) (h : heap) (r t : ref) (c c' : cls)
    (d : complex) (parent parent1 : xml) (value : pyvalue) :
  h !! r = Some (OComplexType c d) →
  _extension d = Some t →
  h !! t = Some (OSimpleType c') →
  _element d = None →
  foldM (render_attribute Y value) parent (_attributes d) = Ok parent1 →
  (∀ v s, getattr_strict value "_value_1" = Ok v →
          SimpleType_xmlvalue c' v = Ok s →
          render Y (S (S f)) h r parent value = Ok (set_text parent1 s)) ∧
  (∀ e, getattr_strict value "_value_1" = Raise e →
        render Y (S (S f)) h r parent value = Raise e ∧
        ∃ msg, e = AttributeError msg).
Proof.
  intros Hr Hext Ht Helem Hattrs.
  assert (Hbody : render Y (S (S f)) h r parent value
                  = (field ← getattr_strict value "_value_1";
                     SimpleType_render c' parent1 field)).
  { cbn [render]. rewrite Hr. unfold ComplexType_render_body.
    rewrite attributes_S, Hr, Hext, attributes_S, Ht. cbn [mbind res_bind app].
    rewrite Hattrs. cbn [mbind res_bind].
    rewrite elements_nested_S, Hr, Hext. cbv zeta. rewrite Ht.
    unfold own_nodes. rewrite Helem.
    replace (get_name 1) with "_value_1" by (by vm_compute).
    cbn [mbind res_bind app foldM]. unfold render_node. cbn [fst snd el_type].
    rewrite Ht. destruct (getattr_strict value "_value_1") as [v| |]; try done.
    cbn [mbind res_bind].
    by destruct (SimpleType_render c' parent1 v). }
  split.
  - intros v s Hv Hs. rewrite Hbody, Hv. cbn [mbind res_bind].
    unfold SimpleType_render. by rewrite Hs.
  - intros e He. rewrite Hbody, He. split; [done |].
    unfold getattr_strict in He.
    destruct value; try (injection He as <-; eauto).
    destruct (dict_get fields "_value_1"); [done |]. injection He as <-. eauto.
Qed.
End RenderFacts.

Lemma ComplexType_render_subtype_witness :
  ComplexType_render More.Y0 2 More.price 0 (XmlElement "price" [] None [])
    (VCompound 0 [("_value_1", VInt 5)]) (Some "tns:Price")
  = Ok (XmlElement "price" [(xsi_type, "tns:Price")] (Some "5") []) ∧
  ∃ x0, ComplexType_render More.Y0 2 More.price 0 (XmlElement "price" [] None [])
          (VCompound 0 [("_value_1", VInt 5)]) None = Ok x0 ∧
        XmlElement "price" [(xsi_type, "tns:Price")] (Some "5") []
        = xml_set x0 xsi_type "tns:Price".
Proof.
  split; [reflexivity |].
  destruct (ComplexType_render_subtype More.Y0 2 More.price 0
              (XmlElement "price" [] None []) (VCompound 0 [("_value_1", VInt 5)])
              "tns:Price" (XmlElement "price" [(xsi_type, "tns:Price")] (Some "5") [])
              eq_refl) as (x0 & Hx0 & Hset & _).
  exists x0. split; [exact Hx0 | exact Hset].
Defined.

Lemma render_simple_content_witness :
  render More.Y0 2 More.price 0 (XmlElement "price" [] None [])
    (VCompound 0 [("_value_1", VInt 5)])
  = Ok (XmlElement "price" [] (Some "5") []) ∧
  ∃ msg, render More.Y0 2 More.price 0 (XmlElement "price" [] None []) VNone
         = Raise (AttributeError msg).
Proof.
  destruct (render_simple_content More.Y0 0 More.price 0 1 _ _ _
              (XmlElement "price" [] None []) (XmlElement "price" [] None [])
              (VCompound 0 [("_value_1", VInt 5)]) eq_refl eq_refl eq_refl eq_refl
              eq_refl) as [Hok _].
  destruct (render_simple_content More.Y0 0 More.price 0 1 _ _ _
              (XmlElement "price" [] None []) (XmlElement "price" [] None [])
              VNone eq_refl eq_refl eq_refl eq_refl eq_refl) as [_ Hfail].
  split.
  - apply (Hok (VInt 5) "5"); reflexivity.
  - destruct (Hfail _ eq_refl) as [Hraise _]. eexists. exact Hraise.
Defined.

(** ** No placeholder survives resolution *)

Lemma complex_refs_Forall (P : ref → Prop) (d : complex) :
  Forall P (complex_refs d) ↔
  (∀ t, _extension d = Some t → P t) ∧
  (∀ t, _restriction d = Some t → P t) ∧
  (∀ nd, _element d = Some nd → Forall P (node_refs nd)) ∧
  Forall P (attr_type <$> _attributes d).
Proof.
  unfold complex_refs. rewrite !Forall_app.
  destruct (_extension d) as [e|], (_restriction d) as [s|], (_element d) as [nd|];
    simpl; rewrite ?Forall_singleton; split.
  all: try (intros (He & Hs & Hn & Ha)).
  all: repeat split; try done.
  all: try (by intros ? [= <-]).
  all: try (by apply He).
  all: try (by apply Hs).
  all: try (by apply Hn).
Qed.

Lemma settled_ref_mono (r : ref) (h h' : heap) (t : ref) :
  tags h' = tags h → keeps_except r h h' → settled_ref h t → settled_ref h' t.
Proof.
  intros Htags [Hflag Hothers] [[c Ht] | Hres].
  - left. assert (Htag : tags h' !! t = Some TSimple).
    { rewrite Htags. unfold tags. by rewrite list_lookup_fmap, Ht. }
    unfold tags in Htag. rewrite list_lookup_fmap in Htag.
    destruct (h' !! t) as [[]|]; try done. eauto.
  - right. destruct (decide (t = r)) as [-> | Hne]; [by apply Hflag |].
    destruct Hres as (c & d & Ht & Hd). exists c, d. split; [| done].
    by apply Hothers.
Qed.

Lemma Forall_settled_mono (r : ref) (h h' : heap) (l : list ref) :
  tags h' = tags h → keeps_except r h h' →
  Forall (settled_ref h) l → Forall (settled_ref h') l.
Proof.
  intros Htags Hkeeps Hl. eapply Forall_impl; [exact Hl |].
  intros t. by apply settled_ref_mono with r.
Qed.

Lemma settled_ref_good (X : Collaborators) (h : heap) (t : ref) :
  settled_ref h t → good X (tags h) t = true.
Proof.
  intros Ht. apply concrete_good. rewrite concrete_tags.
  destruct Ht as [[c ->] | (c & d & -> & _)]; done.
Qed.

Section ClosedSteps.
Local Open Scope nat_scope.
Variable X : Collaborators.
Variable K : list tag.
Variable S : list ref.
Variable r : ref.
Hypothesis r_in_S : r ∈ S.
Variable rs : heap → ref → res (heap * ref).
Hypothesis rs_closed : ∀ t,
  good X K t = true → call_ok X K S (fun t' => [t']) (fun h => rs h t).

Lemma shaped_tags (h h' : heap) : shaped X K h → shaped X K h' → tags h' = tags h.
Proof. intros [-> _] [-> _]. done. Qed.

Lemma closed_except_modify (h : heap) (g : complex → complex) :
  closed_except S h → (∀ d, _resolved (g d) = _resolved d) →
  closed_except S (modify h r g).
Proof using r_in_S.
  intros Hcl Hg q c d Hq Hd HqS.
  assert (q ≠ r) by (intros ->; done).
  rewrite modify_lookup_ne in Hq by done.
  eapply (Forall_settled_mono r h); [apply tags_modify | | by eapply Hcl].
  apply keeps_then_modify; [apply keeps_refl | done].
Qed.

Lemma resolve_element_closed (e : element) :
  good X K (el_type e) = true →
  call_ok X K S (fun e' => [el_type e']) (fun h => resolve_element rs h e).
Proof using rs_closed.
  intros Hg h h' e'. unfold resolve_element.
  intros ([h1 t] & Hrs & [= <- <-])%bind_Ok Hsh Hcl.
  by apply (rs_closed _ Hg h h1 t).
Qed.

Lemma resolve_attribute_closed (a : attribute) :
  good X K (attr_type a) = true →
  call_ok X K S (fun a' => [attr_type a']) (fun h => resolve_attribute rs h a).
Proof using rs_closed.
  intros Hg h h' a'. unfold resolve_attribute.
  intros ([h1 t] & Hrs & [= <- <-])%bind_Ok Hsh Hcl.
  by apply (rs_closed _ Hg h h1 t).
Qed.

Lemma resolve_children_closed (rn : heap → node → res (heap * node)) (l : list node) :
  Forall (fun x => Forall (fun t => good X K t = true) (node_refs x) →
                   call_ok X K S node_refs (fun h => rn h x)) l →
  Forall (fun t => good X K t = true) (concat (node_refs <$> l)) →
  call_ok X K S (fun l' => concat (node_refs <$> l'))
    (fun h => resolve_children rn h l).
Proof.
  induction 1 as [|x l Hx _ IH]; intros Hg h h' l'.
  - rewrite resolve_children_nil. intros [= <- <-] Hsh Hcl.
    split; [done |]. split; [done |]. split; [apply keeps_refl | constructor].
  - rewrite fmap_cons in Hg. cbn [concat] in Hg.
    apply Forall_app in Hg as [Hgx Hgl]. rewrite resolve_children_cons.
    intros ([h1 x'] & Hres1 & ([h2 l''] & Hres2 & [= <- <-])%bind_Ok)%bind_Ok Hsh Hcl.
    destruct (Hx Hgx h h1 x' Hres1 Hsh Hcl) as (Hsh1 & Hcl1 & Hk1 & Hs1).
    destruct (IH Hgl h1 h2 l'' Hres2 Hsh1 Hcl1) as (Hsh2 & Hcl2 & Hk2 & Hs2).
    split; [done |]. split; [done |]. split; [by eapply keeps_trans |].
    rewrite fmap_cons. cbn [concat]. apply Forall_app. split; [| done].
    eapply (Forall_settled_mono 0 h1); [by apply shaped_tags | | done].
    by apply keeps_keeps_except.
Qed.

Lemma resolve_node_closed (nd : node) :
  Forall (fun t => good X K t = true) (node_refs nd) →
  call_ok X K S node_refs (fun h => resolve_node rs h nd).
Proof using rs_closed.
  induction nd as [e | l IH] using node_nested_ind; cbn [node_refs];
    intros Hg h h' nd'.
  - cbn [resolve_node]. rewrite Forall_singleton in Hg.
    intros ([h1 e'] & Hres & [= <- <-])%bind_Ok Hsh Hcl.
    by apply (resolve_element_closed e Hg h h1 e').
  - rewrite resolve_node_Composite.
    intros ([h1 l'] & Hres & [= <- <-])%bind_Ok Hsh Hcl.
    by apply (resolve_children_closed (resolve_node rs) l IH Hg h h1 l').
Qed.

(** A step that returns, followed by the assignment of its result to a field
    of [r]. *)
Lemma run_then_modify {A : Type} (refs : A → list ref)
    (run : heap → res (heap * A)) (g : complex → complex)
    (h h1 : heap) (a : A) (c : cls) (d : complex) :
  call_ok X K S refs run → run h = Ok (h1, a) →
  shaped X K h → closed_except S h →
  h !! r = Some (OComplexType c d) → _resolved d = true →
  (∀ d0, _resolved (g d0) = _resolved d0) →
  (Forall (fun t => good X K t = true) (refs a) →
   ∀ d0, refs_good X K d0 → refs_good X K (g d0)) →
  shaped X K (modify h1 r g) ∧ closed_except S (modify h1 r g) ∧
  keeps_except r h (modify h1 r g) ∧
  modify h1 r g !! r = Some (OComplexType c (g d)) ∧
  Forall (settled_ref (modify h1 r g)) (refs a).
Proof using r_in_S.
  clear rs rs_closed.
  intros Hrun Hres Hsh Hcl Hr Hd Hflag Hgood.
  destruct (Hrun h h1 a Hres Hsh Hcl) as (Hsh1 & Hcl1 & Hk1 & Hs1).
  split; [| split; [| split; [| split]]].
  - apply shaped_modify; [done |]. apply Hgood.
    eapply Forall_impl; [exact Hs1 |]. intros t Ht.
    destruct Hsh1 as [<- _]. by apply settled_ref_good.
  - by apply closed_except_modify.
  - by apply keeps_then_modify.
  - apply modify_lookup_eq. by apply Hk1.
  - eapply (Forall_settled_mono r h1); [apply tags_modify | | done].
    apply keeps_then_modify; [apply keeps_refl | done].
Qed.

Lemma resolve_extension_closed (h h' : heap) (c : cls) (d : complex) :
  resolve_extension rs h r = Ok h' →
  shaped X K h → closed_except S h →
  h !! r = Some (OComplexType c d) → _resolved d = true →
  ∃ d', shaped X K h' ∧ closed_except S h' ∧ keeps_except r h h' ∧
        h' !! r = Some (OComplexType c d') ∧ _resolved d' = true ∧
        _restriction d' = _restriction d ∧ _element d' = _element d ∧
        _attributes d' = _attributes d ∧
        ∀ t, _extension d' = Some t → settled_ref h' t.
Proof using r_in_S rs_closed.
  intros Hres Hsh Hcl Hr Hd. unfold resolve_extension, complex_at in Hres.
  rewrite Hr in Hres. destruct (_extension d) as [t|] eqn:Hext.
  - apply bind_Ok in Hres as ([h1 t'] & Hrs & [= <-]).
    assert (Hg : good X K t = true).
    { destruct (shaped_fields X K h r c d Hsh Hr) as (He & _). by apply He. }
    assert (Hset : Forall (fun t => good X K t = true) [t'] →
                   ∀ d0, refs_good X K d0 → refs_good X K (set_extension t' d0)).
    { intros Ht' d0. rewrite Forall_singleton in Ht'.
      clear -Ht'. intros (_ & Hs & Hn & Ha)%refs_good_fields.
      apply refs_good_fields. repeat split; try done. by intros ? [= <-]. }
    destruct (run_then_modify (fun t' => [t']) (fun h => rs h t) (set_extension t')
                h h1 t' c d (rs_closed t Hg) Hrs Hsh Hcl Hr Hd
                (fun d0 => eq_refl) Hset)
      as (Hsh' & Hcl' & Hk' & Hr' & Hs').
    exists (set_extension t' d). split_and!; try done.
    intros t0 [= <-]. by rewrite Forall_singleton in Hs'.
  - injection Hres as <-. exists d. split_and!; try done.
    all: first [apply keeps_except_refl | by rewrite Hext].
Qed.

Lemma resolve_restriction_closed (h h' : heap) (c : cls) (d : complex) :
  resolve_restriction rs h r = Ok h' →
  shaped X K h → closed_except S h →
  h !! r = Some (OComplexType c d) → _resolved d = true →
  ∃ d', shaped X K h' ∧ closed_except S h' ∧ keeps_except r h h' ∧
        h' !! r = Some (OComplexType c d') ∧ _resolved d' = true ∧
        _extension d' = _extension d ∧ _element d' = _element d ∧
        _attributes d' = _attributes d ∧
        ∀ t, _restriction d' = Some t → settled_ref h' t.
Proof using r_in_S rs_closed.
  intros Hres Hsh Hcl Hr Hd. unfold resolve_restriction, complex_at in Hres.
  rewrite Hr in Hres. destruct (_restriction d) as [t|] eqn:Hext.
  - apply bind_Ok in Hres as ([h1 t'] & Hrs & [= <-]).
    assert (Hg : good X K t = true).
    { destruct (shaped_fields X K h r c d Hsh Hr) as (_ & He & _). by apply He. }
    assert (Hset : Forall (fun t => good X K t = true) [t'] →
                   ∀ d0, refs_good X K d0 → refs_good X K (set_restriction t' d0)).
    { intros Ht' d0. rewrite Forall_singleton in Ht'.
      clear -Ht'. intros (He & _ & Hn & Ha)%refs_good_fields.
      apply refs_good_fields. repeat split; try done. by intros ? [= <-]. }
    destruct (run_then_modify (fun t' => [t']) (fun h => rs h t) (set_restriction t')
                h h1 t' c d (rs_closed t Hg) Hrs Hsh Hcl Hr Hd
                (fun d0 => eq_refl) Hset)
      as (Hsh' & Hcl' & Hk' & Hr' & Hs').
    exists (set_restriction t' d). split_and!; try done.
    intros t0 [= <-]. by rewrite Forall_singleton in Hs'.
  - injection Hres as <-. exists d. split_and!; try done.
    all: first [apply keeps_except_refl | by rewrite Hext].
Qed.

Lemma resolve_content_closed (h h' : heap) (c : cls) (d : complex) :
  resolve_content rs h r = Ok h' →
  shaped X K h → closed_except S h →
  h !! r = Some (OComplexType c d) → _resolved d = true →
  ∃ d', shaped X K h' ∧ closed_except S h' ∧ keeps_except r h h' ∧
        h' !! r = Some (OComplexType c d') ∧ _resolved d' = true ∧
        _extension d' = _extension d ∧ _restriction d' = _restriction d ∧
        _attributes d' = _attributes d ∧
        ∀ nd, _element d' = Some nd → Forall (settled_ref h') (node_refs nd).
Proof using r_in_S rs_closed.
  intros Hres Hsh Hcl Hr Hd. unfold resolve_content, complex_at in Hres.
  rewrite Hr in Hres.
  assert (Hsame : ∀ nd, _element d = Some nd → node_truthy nd = false →
            ∃ d', shaped X K h ∧ closed_except S h ∧ keeps_except r h h ∧
                  h !! r = Some (OComplexType c d') ∧ _resolved d' = true ∧
                  _extension d' = _extension d ∧ _restriction d' = _restriction d ∧
                  _attributes d' = _attributes d ∧
                  ∀ nd, _element d' = Some nd → Forall (settled_ref h) (node_refs nd)).
  { intros nd Hnd Hfalsy. exists d. split_and!; try done.
    all: first [apply keeps_except_refl | idtac].
    intros nd' Hnd'. rewrite Hnd in Hnd'. injection Hnd' as <-.
    destruct nd as [e | [|e l]]; try done. }
  destruct (_element d) as [nd|] eqn:Helem.
  - destruct (node_truthy nd) eqn:Htruthy.
    + apply bind_Ok in Hres as ([h1 nd'] & Hrs & [= <-]).
      assert (Hg : Forall (fun t => good X K t = true) (node_refs nd)).
      { destruct (shaped_fields X K h r c d Hsh Hr) as (_ & _ & He & _).
        by apply He. }
      assert (Hset : Forall (fun t => good X K t = true) (node_refs nd') →
                     ∀ d0, refs_good X K d0 → refs_good X K (set_element nd' d0)).
      { intros Ht' d0. clear -Ht'. intros (He & Hs & _ & Ha)%refs_good_fields.
        apply refs_good_fields. repeat split; try done. by intros ? [= <-]. }
      destruct (run_then_modify node_refs (fun h => resolve_node rs h nd)
                  (set_element nd') h h1 nd' c d (resolve_node_closed nd Hg)
                  Hrs Hsh Hcl Hr Hd (fun d0 => eq_refl) Hset)
        as (Hsh' & Hcl' & Hk' & Hr' & Hs').
      exists (set_element nd' d). split_and!; try done. by intros ? [= <-].
    + injection Hres as <-. by apply (Hsame nd).
  - injection Hres as <-. exists d. split_and!; try done.
    all: first [apply keeps_except_refl | by rewrite Helem].
Qed.
End ClosedSteps.

Section ClosedLoop.
Local Open Scope nat_scope.
Variable X : Collaborators.
Variable K : list tag.
Variable S : list ref.
Variable r : ref.
Hypothesis r_in_S : r ∈ S.
Variable rs : heap → ref → res (heap * ref).
Hypothesis rs_closed : ∀ t,
  good X K t = true → call_ok X K S (fun t' => [t']) (fun h => rs h t).

(** The attribute loop from index [i]: the attributes below [i] are kept,
    those of the [n] turns are settled. *)
Lemma resolve_attributes_closed (n i : nat) (h h' : heap) (c : cls) (d : complex) :
  resolve_attributes rs n i h r = Ok h' →
  shaped X K h → closed_except S h →
  h !! r = Some (OComplexType c d) → _resolved d = true →
  ∃ d', shaped X K h' ∧ closed_except S h' ∧ keeps_except r h h' ∧
        h' !! r = Some (OComplexType c d') ∧ _resolved d' = true ∧
        _extension d' = _extension d ∧ _restriction d' = _restriction d ∧
        _element d' = _element d ∧
        length (_attributes d') = length (_attributes d) ∧
        (∀ j a, j < i → _attributes d !! j = Some a → _attributes d' !! j = Some a) ∧
        (∀ j a', i ≤ j < i + n → _attributes d' !! j = Some a' →
                 settled_ref h' (attr_type a')).
Proof using r_in_S rs_closed.
  revert i h d. induction n as [|n IH]; intros i h d; cbn [resolve_attributes].
  - intros [= <-] Hsh Hcl Hr Hd. exists d. split_and!; try done.
    all: first [apply keeps_except_refl | intros j a' Hj; lia].
  - intros Hres Hsh Hcl Hr Hd. unfold complex_at in Hres. rewrite Hr in Hres.
    destruct (_attributes d !! i) as [a|] eqn:Ha.
    + apply bind_Ok in Hres as ([h1 a'] & Hrun & Hrest).
      assert (Hg : good X K (attr_type a) = true).
      { destruct (shaped_fields X K h r c d Hsh Hr) as (_ & _ & _ & Hattrs).
        apply (Forall_lookup_1 _ _ i _ Hattrs). by rewrite list_lookup_fmap, Ha. }
      assert (Hset : Forall (fun t => good X K t = true) [attr_type a'] →
                ∀ d0, refs_good X K d0 → refs_good X K (set_attribute i a' d0)).
      { intros Ht' d0. rewrite Forall_singleton in Ht'.
        by apply refs_good_set_attribute. }
      destruct (run_then_modify X K S r r_in_S (fun a' => [attr_type a'])
                  (fun h => resolve_attribute rs h a) (set_attribute i a')
                  h h1 a' c d (resolve_attribute_closed X K S rs rs_closed a Hg)
                  Hrun Hsh Hcl Hr Hd (fun d0 => eq_refl) Hset)
        as (Hsh1 & Hcl1 & Hk1 & Hr1 & Hs1).
      rewrite Forall_singleton in Hs1.
      destruct (IH (Datatypes.S i) _ (set_attribute i a' d) Hrest Hsh1 Hcl1 Hr1 Hd)
        as (d' & Hsh' & Hcl' & Hk' & Hr' & Hd' & He' & Hs' & Hn' & Hlen & Hlow & Hhigh).
      cbn [set_attribute _attributes _extension _restriction _element] in *.
      rewrite length_insert in Hlen.
      assert (Hi : i < length (_attributes d)) by (by eapply lookup_lt_Some).
      exists d'. split_and!; try done.
      * by eapply keeps_except_trans.
      * intros j b Hj Hb. apply Hlow; [lia |].
        rewrite list_lookup_insert_ne by lia. done.
      * intros j b Hj Hb. destruct (decide (j = i)) as [-> | Hne].
        -- assert (Hi' : _attributes d' !! i = Some a').
           { apply Hlow; [lia |]. by apply list_lookup_insert_eq. }
           rewrite Hi' in Hb. injection Hb as <-.
           eapply (settled_ref_mono r); [| exact Hk' | exact Hs1].
           by apply (shaped_tags X K).
        -- apply (Hhigh j); [lia | done].
    + injection Hres as <-. exists d. split_and!; try done.
      all: first [apply keeps_except_refl | idtac].
      intros j a' Hj Ha'. apply lookup_ge_None_1 in Ha.
      apply lookup_lt_Some in Ha'. lia.
Qed.
End ClosedLoop.

Lemma ComplexType_resolve_closed (X : Collaborators) (K : list tag) (St : list ref)
    (rs : heap → ref → res (heap * ref)) (r : ref) (h h' : heap) (r' : ref)
    (c : cls) (d : complex) :
  (∀ t, good X K t = true →
        call_ok X K (r :: St) (fun t' => [t']) (fun h => rs h t)) →
  ComplexType_resolve rs h r d = Ok (h', r') →
  h !! r = Some (OComplexType c d) → _resolved d = false →
  shaped X K h → closed_except St h →
  shaped X K h' ∧ closed_except St h' ∧ is_resolved h' r.
Proof.
  intros Hrs Hres Hr Hd Hsh Hcl. unfold ComplexType_resolve in Hres.
  rewrite Hd in Hres.
  apply bind_Ok in Hres as (h1 & H1 & Hres).
  apply bind_Ok in Hres as (h2 & H2 & Hres).
  apply bind_Ok in Hres as (h3 & H3 & Hres).
  apply bind_Ok in Hres as (h4 & H4 & [= <- <-]).
  assert (Hr0 : modify h r set_resolved !! r = Some (OComplexType c (set_resolved d))).
  { by apply modify_lookup_eq. }
  assert (Hsh0 : shaped X K (modify h r set_resolved)).
  { apply shaped_modify; [done |]. intros d0 Hd0. exact Hd0. }
  assert (Hcl0 : closed_except (r :: St) (modify h r set_resolved)).
  { intros q c0 d0 Hq Hd0 HqS.
    assert (Hne : q ≠ r) by (intros ->; apply HqS; by left).
    assert (HqSt : q ∉ St) by (intros ?; apply HqS; by right).
    rewrite modify_lookup_ne in Hq by done.
    eapply (Forall_settled_mono r h); [apply tags_modify | | by eapply Hcl].
    split.
    - intros _. exists c, (set_resolved d). by split.
    - intros q' c' d' Hne' Hq' _. by rewrite modify_lookup_ne. }
  assert (Hin : r ∈ r :: St) by (by left).
  destruct (resolve_extension_closed X K (r :: St) r Hin rs Hrs _ h1 c
              (set_resolved d) H1 Hsh0 Hcl0 Hr0 eq_refl)
    as (d1 & Hsh1 & Hcl1 & Hk1 & Hr1 & Hd1 & Hrestr1 & Helem1 & Hattr1 & Hext1).
  destruct (resolve_restriction_closed X K (r :: St) r Hin rs Hrs h1 h2 c d1
              H2 Hsh1 Hcl1 Hr1 Hd1)
    as (d2 & Hsh2 & Hcl2 & Hk2 & Hr2 & Hd2 & Hext2 & Helem2 & Hattr2 & Hrestr2).
  destruct (resolve_content_closed X K (r :: St) r Hin rs Hrs h2 h3 c d2
              H3 Hsh2 Hcl2 Hr2 Hd2)
    as (d3 & Hsh3 & Hcl3 & Hk3 & Hr3 & Hd3 & Hext3 & Hrestr3 & Hattr3 & Helem3).
  destruct (resolve_attributes_closed X K (r :: St) r Hin rs Hrs
              (length (_attributes d)) 0 h3 h4 c d3 H4 Hsh3 Hcl3 Hr3 Hd3)
    as (d4 & Hsh4 & Hcl4 & Hk4 & Hr4 & Hd4 & Hext4 & Hrestr4 & Helem4 & Hlen4
        & _ & Hattrs4).
  assert (Ht43 : tags h4 = tags h3) by (by apply (shaped_tags X K)).
  assert (Ht42 : tags h4 = tags h2) by (by apply (shaped_tags X K)).
  assert (Ht41 : tags h4 = tags h1) by (by apply (shaped_tags X K)).
  assert (Hk24 : keeps_except r h2 h4) by (by eapply keeps_except_trans).
  assert (Hk14 : keeps_except r h1 h4) by (by eapply keeps_except_trans).
  split; [done |]. split; [| by exists c, d4].
  intros q c0 d0 Hq Hd0 HqSt. destruct (decide (q = r)) as [-> | Hne].
  - rewrite Hr4 in Hq. injection Hq as <- <-. apply complex_refs_Forall.
    split_and!.
    + intros t Ht. rewrite Hext4, Hext3, Hext2 in Ht.
      eapply (settled_ref_mono r h1); [done | done | by apply Hext1].
    + intros t Ht. rewrite Hrestr4, Hrestr3 in Ht.
      eapply (settled_ref_mono r h2); [done | done | by apply Hrestr2].
    + intros nd Hnd. rewrite Helem4 in Hnd.
      eapply (Forall_settled_mono r h3); [done | done | by apply Helem3].
    + apply Forall_lookup. intros j t Hj. rewrite list_lookup_fmap in Hj.
      destruct (_attributes d4 !! j) as [a'|] eqn:Ha'; [| done].
      injection Hj as <-. apply (Hattrs4 j); [| done].
      apply lookup_lt_Some in Ha'.
      rewrite Hlen4, Hattr3, Hattr2, Hattr1 in Ha'. simpl in Ha'. lia.
  - apply (Hcl4 q c0 d0); [done | done |].
    intros [-> | ?]%elem_of_cons; done.
Qed.

Lemma resolve_closed (X : Collaborators) (K : list tag) (f : nat) :
  ∀ St t, good X K t = true →
    call_ok X K St (fun t' => [t']) (fun h => resolve X f h t).
Proof.
  induction f as [|f IH]; intros St t Hg h h' t' Hres Hsh Hcl; [done |].
  assert (HK : tags h = K) by apply Hsh.
  pose proof (resolve_keeps X (S f) h t h' t' Hres) as Hkeeps.
  cbn [resolve] in Hres. rewrite <- HK in Hg.
  destruct (good_cases X h t Hg) as [Hc | (q & t1 & Ht & Hq & Hc)].
  - destruct (concrete_lookup h t Hc) as [[c Ht] | (c & d & Ht)]; rewrite Ht in Hres.
    + injection Hres as <- <-. split_and!; try done.
      apply Forall_singleton. left. eauto.
    + destruct (_resolved d) eqn:Hd.
      * unfold ComplexType_resolve in Hres. rewrite Hd in Hres.
        injection Hres as <- <-. split_and!; try done.
        apply Forall_singleton. right. by exists c, d.
      * destruct (ComplexType_resolve_keeps _ (resolve_keeps X f) _ _ _ _ _ _ Ht Hres)
          as (-> & _ & _).
        destruct (ComplexType_resolve_closed X K St (resolve X f) t h h' t c d
                    (fun t0 Hg0 => IH (t :: St) t0 Hg0) Hres Ht Hd Hsh Hcl)
          as (Hsh' & Hcl' & Hdone).
        split_and!; try done. apply Forall_singleton. by right.
  - rewrite Ht, Hq in Hres. cbn [mbind res_bind] in Hres.
    rewrite HK in Hc.
    by apply (IH St t1 (concrete_good X K t1 Hc) h h' t').
Qed.

(** X15: after resolve returns on a ComplexType of a well-formed graph, no
    placeholder is left in a type whose resolution is complete: the type,
    and every complex type marked resolved, holds references to simple types
    and to resolved complex types only, provided that was so of the types
    resolved before the call. *)
Theorem resolve_leaves_no_placeholder (X : Collaborators) (f : nat) (h : heap)
    (r : ref) (h' : heap) (r' : ref) :
  graph_ok X h → closed_except [] h → is_complex h r →
  resolve X f h r = Ok (h', r') →
  graph_ok X h' ∧ closed_except [] h' ∧ is_resolved h' r ∧
  ∀ c d, h' !! r = Some (OComplexType c d) →
         Forall (settled_ref h') (complex_refs d).
Proof.
  intros Hok Hcl Hr Hres.
  assert (Hg : good X (tags h) r = true).
  { apply concrete_good. destruct Hr as (c & d & Hr). by rewrite concrete_tags, Hr. }
  destruct (resolve_closed X (tags h) f [] r Hg h h' r' Hres) as ([_ Hok'] & Hcl' & _);
    [done | done |].
  destruct (resolve_complex_resolved X f h r h' r' Hr Hres) as [_ Hdone].
  split_and!; try done.
  intros c d Hr'. destruct Hdone as (c0 & d0 & Hr0 & Hd0).
  rewrite Hr0 in Hr'. injection Hr' as <- <-.
  apply (Hcl' r c0 d0 Hr0 Hd0). apply not_elem_of_nil.
Qed.

Lemma resolve_leaves_no_placeholder_witness :
  closed_except [] Sample.resolved_graph ∧ is_resolved Sample.resolved_graph 0 ∧
  settled_ref Sample.resolved_graph 0.
Proof.
  destruct (resolve_leaves_no_placeholder Sample.X0 8 Sample.graph 0
              Sample.resolved_graph 0) as (_ & Hcl & Hdone & _).
  - unfold graph_ok. repeat (constructor; [reflexivity |]). constructor.
  - intros q c d Hq Hd _.
    destruct q as [|[|[|[|[|q]]]]]; simpl in Hq; try discriminate Hq;
      injection Hq as <- <-; discriminate Hd.
  - eexists _, _. reflexivity.
  - reflexivity.
  - split; [exact Hcl |]. split; [exact Hdone | right; exact Hdone].
Defined.

(** ** The views across an extension *)

(** X16: each evaluation of elements_nested draws its names from a generator
    of its own, and draws one name for the extension before its own node.
    So the own content node of every type that has an extension is named
    [_value_2]: along a chain of three types with content, the nodes of the
    two upper types carry the same name. *)
Theorem elements_nested_names_repeat (h : heap) (r t u : ref) (c c' : cls)
    (d d' : complex) (nd nd' : node) (n : nat) :
  h !! r = Some (OComplexType c d) → _extension d = Some t →
  h !! t = Some (OComplexType c' d') → _extension d' = Some u →
  extension_chain h u n →
  _element d = Some nd → node_truthy nd = true →
  _element d' = Some nd' → node_truthy nd' = true →
  ∃ base, elements_nested (S n) h u = Ok base ∧
          elements_nested (S (S (S n))) h r
          = Ok (base ++ [(get_name 2, nd'); (get_name 2, nd)]).
Proof.
  intros Hr Hext Ht Hext' Hchain Hnd Htruthy Hnd' Htruthy'.
  destruct (views_of_chain _ _ _ Hchain) as (attrs & base & _ & Hbase).
  destruct (extension_chain_complex _ _ _ Hchain) as (c'' & d'' & Hu).
  exists base. split; [done |].
  assert (Hmid : elements_nested (S (S n)) h t = Ok (base ++ [(get_name 2, nd')])).
  { rewrite elements_nested_S, Ht, Hext'. cbv zeta. rewrite Hu, Hbase.
    cbn [mbind res_bind]. unfold own_nodes. by rewrite Hnd', Htruthy'. }
  rewrite elements_nested_S, Hr, Hext. cbv zeta. rewrite Ht, Hmid.
  cbn [mbind res_bind]. unfold own_nodes. rewrite Hnd, Htruthy.
  by rewrite <- app_assoc.
Qed.

(** X17: the views follow an extension only into a SimpleType or a
    ComplexType.  When the extension is a ListType, or a placeholder not yet
    resolved, the effective attributes are the type's own, and
    elements_nested raises AttributeError, and with it the flattened
    elements, serialize and signature. *)
Theorem views_of_other_extension (X : Collaborators) (f : nat) (h : heap)
    (r t : ref) (c : cls) (d : complex) (o : obj) :
  h !! r = Some (OComplexType c d) → _extension d = Some t → h !! t = Some o →
  (∃ item, o = OListType item) ∨ (∃ q, o = OUnresolvedType q) ∨
  (∃ name base, o = OUnresolvedCustomType name base) →
  attributes (S (S f)) h r = Ok (_attributes d) ∧
  ∃ msg,
    elements_nested (S f) h r = Raise (AttributeError msg) ∧
    elements (S f) h r = Raise (AttributeError msg) ∧
    (∀ value, serialize X (S f) h r value = Raise (AttributeError msg)) ∧
    signature X (S f) h r = Raise (AttributeError msg).
Proof.
  intros Hr Hext Ht Ho. split.
  - rewrite attributes_S, Hr, Hext, attributes_S, Ht.
    by destruct Ho as [(? & ->) | [(? & ->) | (? & ? & ->)]].
  - assert (Hn : ∃ msg, elements_nested (S f) h r = Raise (AttributeError msg)).
    { rewrite elements_nested_S, Hr, Hext. cbv zeta. rewrite Ht.
      destruct Ho as [(? & ->) | [(? & ->) | (? & ? & ->)]];
        cbn [mbind res_bind]; unfold no_attribute; eauto. }
    destruct Hn as [msg Hn]. exists msg. unfold elements, serialize, signature.
    rewrite Hn. done.
Qed.

Lemma elements_nested_names_repeat_witness :
  ∃ base, elements_nested 3 More.three_levels 0
          = Ok (base ++ [("_value_2", Composite [Single (Element "b" 3)]);
                         ("_value_2", Composite [Single (Element "a" 3)])]).
Proof.
  destruct (elements_nested_names_repeat More.three_levels 0 1 2 _ _ _ _
              (Composite [Single (Element "a" 3)]) (Composite [Single (Element "b" 3)]) 0
              eq_refl eq_refl eq_refl eq_refl) as (base & _ & Hall).
  - eapply chain_base; reflexivity.
  - reflexivity.
  - reflexivity.
  - reflexivity.
  - reflexivity.
  - exists base. exact Hall.
Defined.

Lemma views_of_other_extension_witness :
  attributes 2 More.extends_list 0 = Ok [Attribute "unit" 2] ∧
  ∃ msg, serialize Sample.X0 1 More.extends_list 0 VNone = Raise (AttributeError msg).
Proof.
  destruct (views_of_other_extension Sample.X0 0 More.extends_list 0 1 _ _ _
              eq_refl eq_refl eq_refl) as (Hattrs & msg & _ & _ & Hser & _).
  - left. eauto.
  - split; [exact Hattrs |]. exists msg. apply Hser.
Defined.
